(** * Multi-cam view (src/js/multi-cam-view.js): a shallow embedding

    The camera page keeps its state in module-level variables
    ([cameras], [activeId], [panPaused], [panNode], [glitchTimer],
    [lostSignalAnimationId]) and in the DOM.  We model that state as a
    record threaded through the functions of the file; DOM elements live
    in a small heap ([dom]) so that [panNode] and the child of [viewEl]
    can be the same object, as in the source.  Pending [setTimeout] and
    [requestAnimationFrame] callbacks are kept in two lists, so that the
    browser firing a callback is a step of its own.

    JS numbers are modelled by exact rationals [Q]; the rounding of IEEE
    doubles in intermediate products is not modelled.  Stores into the
    [Uint8ClampedArray] of an [ImageData] go through [ToUint8Clamp]. *)

From stdpp Require Import base gmap strings list sorting.
From Stdlib Require Import Ascii QArith Qround ZArith Lia Lqa.
From coqutil Require Import Datatypes.RecordSetters.
Import DoubleBraceUpdate.

Open Scope Q_scope.

(* ------------------------------------------------------------------ *)
(** ** JS numbers, truthiness and typed-array stores *)

(** The results of [parseFloat] / [parseInt]: NaN or a finite number. *)
Inductive jsnum := JNaN | JNum (q : Q).

(** [v || d] on a number: NaN and 0 are falsy. *)
Definition num_or (v : jsnum) (d : Q) : Q :=
  match v with
  | JNaN => d
  | JNum q => if Qeq_bool q 0 then d else q
  end.

(** [x || d] on a string: the empty string is falsy, and so is
    [undefined] (a missing property, [None]). *)
Definition str_or (o : option string) (d : string) : string :=
  match o with
  | Some s => if String.eqb s "" then d else s
  | None => d
  end.

(** [String(x)] for a property read that may be [undefined]. *)
Definition js_to_string (o : option string) : string :=
  match o with Some s => s | None => "undefined" end.

(** Strict comparison on [Q] as a boolean. *)
Definition qltb (x y : Q) : bool := negb (Qle_bool y x).

(** ToUint8Clamp (ECMA-262 7.1.11): the conversion applied when a number
    is stored into a [Uint8ClampedArray], e.g. the [data] of an
    [ImageData]: clamp to [0,255], then round half to even. *)
Definition ToUint8Clamp (x : Q) : Z :=
  if Qle_bool x 0 then 0%Z
  else if Qle_bool 255 x then 255%Z
  else
    let f := Qfloor x in
    let half := inject_Z f + (1 # 2) in
    if qltb half x then (f + 1)%Z
    else if qltb x half then f
    else if Z.even f then f else (f + 1)%Z.

(* ------------------------------------------------------------------ *)
(** ** [parseFloat] and [parseInt]

    The forms the sheet cells use: leading white space, an optional sign,
    decimal digits with an optional fraction for [parseFloat]; decimal
    digits, or hexadecimal digits after [0x]/[0X], for [parseInt] without
    a radix.  Parsing stops at the first character that does not fit, as
    in JS.  Exponents and the literal [Infinity] are not modelled. *)

Definition is_ws (c : ascii) : bool :=
  let n := Ascii.nat_of_ascii c in
  (Nat.eqb n 32 || Nat.eqb n 9 || Nat.eqb n 10 || Nat.eqb n 11
   || Nat.eqb n 12 || Nat.eqb n 13)%bool.

Fixpoint skip_ws (s : string) : string :=
  match s with
  | String c s' => if is_ws c then skip_ws s' else s
  | EmptyString => EmptyString
  end.

(** Optional sign: [true] for a minus. *)
Definition take_sign (s : string) : bool * string :=
  match s with
  | String c s' =>
      if Ascii.eqb c "-"%char then (true, s')
      else if Ascii.eqb c "+"%char then (false, s')
      else (false, s)
  | EmptyString => (false, s)
  end.

Definition dec_digit (c : ascii) : option Z :=
  let n := Ascii.nat_of_ascii c in
  if (48 <=? n)%nat && (n <=? 57)%nat then Some (Z.of_nat n - 48)%Z else None.

Definition hex_digit (c : ascii) : option Z :=
  let n := Ascii.nat_of_ascii c in
  if (48 <=? n)%nat && (n <=? 57)%nat then Some (Z.of_nat n - 48)%Z
  else if (97 <=? n)%nat && (n <=? 102)%nat then Some (Z.of_nat n - 87)%Z
  else if (65 <=? n)%nat && (n <=? 70)%nat then Some (Z.of_nat n - 55)%Z
  else None.

(** Longest digit prefix: its value, its length, and the rest. *)
Fixpoint take_digits (digit : ascii -> option Z) (radix : Z) (s : string)
    (acc : Z) (cnt : nat) : Z * nat * string :=
  match s with
  | String c s' =>
      match digit c with
      | Some d => take_digits digit radix s' (acc * radix + d)%Z (S cnt)
      | None => (acc, cnt, s)
      end
  | EmptyString => (acc, cnt, s)
  end.

Definition apply_sign (neg : bool) (q : Q) : Q := if neg then - q else q.

Definition parseFloat (s : string) : jsnum :=
  let '(neg, s1) := take_sign (skip_ws s) in
  let '(ip, ni, s2) := take_digits dec_digit 10 s1 0 0 in
  match s2 with
  | String c s3 =>
      if Ascii.eqb c "."%char then
        let '(fp, nf, _) := take_digits dec_digit 10 s3 0 0 in
        if Nat.eqb (ni + nf) 0 then JNaN
        else JNum (apply_sign neg (inject_Z ip + inject_Z fp / inject_Z (10 ^ Z.of_nat nf)))
      else if Nat.eqb ni 0 then JNaN else JNum (apply_sign neg (inject_Z ip))
  | EmptyString => if Nat.eqb ni 0 then JNaN else JNum (apply_sign neg (inject_Z ip))
  end.

Definition parseInt (s : string) : jsnum :=
  let '(neg, s1) := take_sign (skip_ws s) in
  let '(digit, radix, s2) :=
    match s1 with
    | String z (String x s') =>
        if Ascii.eqb z "0"%char && (Ascii.eqb x "x"%char || Ascii.eqb x "X"%char)
        then (hex_digit, 16%Z, s')
        else (dec_digit, 10%Z, s1)
    | _ => (dec_digit, 10%Z, s1)
    end in
  let '(v, n, _) := take_digits digit radix s2 0 0 in
  if Nat.eqb n 0 then JNaN else JNum (apply_sign neg (inject_Z v)).

(** [String.prototype.toUpperCase] on the ASCII letters. *)
Definition ascii_upper (c : ascii) : ascii :=
  let n := Ascii.nat_of_ascii c in
  if (97 <=? n)%nat && (n <=? 122)%nat then Ascii.ascii_of_nat (n - 32) else c.

Fixpoint toUpperCase (s : string) : string :=
  match s with
  | String c s' => String (ascii_upper c) (toUpperCase s')
  | EmptyString => EmptyString
  end.

(* ------------------------------------------------------------------ *)
(** ** Camera records ([loadCameras]) *)

Record camera := mkCamera {
  id : string;
  section : string;
  location : string;
  status : string;
  distance : string;
  hudText : string;
  imageUrl : string;
  panEnabled : bool;
  panDuration : Q;
  glitchMinMs : Q;
  glitchMaxMs : Q
}.

(** A parsed row of the sheet ([parseSheetData]): lower-cased header to
    cell text.  Headers absent from the sheet read as [undefined]. *)
Abbreviation entry := (gmap string string).

(** The object literal built for each row with a non-empty [camid]
    (lines 132-144). *)
Definition camera_of_entry (camId : string) (e : entry) : camera :=
  {| id := camId;
     section := str_or (e !! "section") "UNKNOWN";
     location := str_or (e !! "location") "Unknown Location";
     status := toUpperCase (str_or (e !! "status") "OFFLINE");
     distance := str_or (e !! "distance") "--";
     hudText := str_or (e !! "hudtext") "CAMERA FEED";
     imageUrl := str_or (e !! "imageurl") "";
     panEnabled := bool_decide (e !! "panenabled" = Some "true")
                   || bool_decide (e !! "panenabled" = Some "TRUE");
     panDuration := num_or (parseFloat (js_to_string (e !! "panduration"))) 7;
     glitchMinMs := num_or (parseInt (js_to_string (e !! "glitchminms"))) 400;
     glitchMaxMs := num_or (parseInt (js_to_string (e !! "glitchmaxms"))) 1200 |}.

(** The [camEntries.forEach] loop: fill [cameras] and [sections]. *)
Definition load_entry (acc : gmap string camera * gmap string (list camera))
    (e : entry) : gmap string camera * gmap string (list camera) :=
  let '(cams, secs) := acc in
  let camId := str_or (e !! "camid") "" in
  if String.eqb camId "" then acc
  else
    let cam := camera_of_entry camId e in
    let cams' := <[camId := cam]> cams in
    let sname := section cam in
    let group := default [] (secs !! sname) in
    (cams', <[sname := group ++ [cam]]> secs).


(* ------------------------------------------------------------------ *)
(** ** Page state *)

(** The elements [loadScene] mounts in [viewEl]: an [<img>], a
    [<video>], or the lost-signal container holding the noise canvas. *)
Inductive elem_kind := EImg | EVideo | ELostSignal.

Record element := mkElement {
  kind : elem_kind;
  src : string;
  alt : string;
  className : string;
  animationDuration : option Q;          (* style.animationDuration, seconds *)
  animationPlayState : option string;    (* style.animationPlayState *)
  canvasW : Q;                           (* canvas.width (lost signal) *)
  canvasH : Q                            (* canvas.height (lost signal) *)
}.

(** The closure state of one [drawNoise] loop (lines 380-395): the
    canvas size, the low-resolution buffer and [last], [t], [prev]. *)
Record noise := mkNoise {
  nz_w : Q;
  nz_h : Q;
  smallW : nat;
  smallH : nat;
  last : Q;
  t : Q;
  prev : option (list Z);
  data : list Z
}.

(** Callbacks waiting in the browser.  [owner] is a ghost tag: the value
    of [session] (the number of successful [loadScene] calls) when the
    callback's loop was started. *)
Inductive timer_cb :=
  | Bump (min max : Q) (owner : nat)       (* [bump] of [triggerGlitch] *)
  | VideoPlayRetry (node : nat).           (* the 500 ms [video.play()] retry *)

Inductive frame_cb :=
  | DrawNoise (nz : noise) (owner : nat).

(** A pending [setTimeout]: handle, delay passed, callback. *)
Record pending_timer := mkTimer { th : nat; tdelay : Q; tcb : timer_cb }.
(** A pending [requestAnimationFrame]: handle, callback. *)
Record pending_frame := mkFrame { fh : nat; fcb : frame_cb }.

Record state := mkState {
  (* module-level [let]s *)
  cameras : gmap string camera;
  activeId : option string;
  panPaused : bool;
  panNode : option nat;
  glitchTimer : option nat;
  lostSignalAnimationId : option nat;
  (* the DOM *)
  dom : gmap nat element;
  viewChildren : list nat;
  glitchShow : bool;                     (* glitchEl has class 'show' *)
  labelText : string;
  stateText : string;
  hudLine : string;
  toggleLabel : string;
  ariaLabel : string;
  activeHighlight : option string;       (* data-id of the '.cam.active' entries *)
  viewW : Q;                             (* viewEl.offsetWidth *)
  viewH : Q;                             (* viewEl.offsetHeight *)
  (* the browser *)
  timers : list pending_timer;
  frames : list pending_frame;
  nextHandle : nat;                      (* next fresh handle / element id *)
  rnd : nat -> Q;                        (* the draws of Math.random *)
  rpos : nat;
  consoleLog : list string;
  (* ghost *)
  session : nat
}.

(* ------------------------------------------------------------------ *)
(** ** Browser primitives *)

Definition Math_random (s : state) : Q * state :=
  (rnd s (rpos s), s {{ rpos ::= S }}).

Definition setTimeout (cb : timer_cb) (delay : Q) (s : state) : nat * state :=
  let h := nextHandle s in
  (h, s {{ nextHandle := S h; timers ::= fun ts => ts ++ [mkTimer h delay cb] }}).

Definition clearTimeout (h : nat) (s : state) : state :=
  s {{ timers ::= List.filter (fun e => negb (Nat.eqb (th e) h)) }}.

Definition requestAnimationFrame (cb : frame_cb) (s : state) : nat * state :=
  let h := nextHandle s in
  (h, s {{ nextHandle := S h; frames ::= fun fs => fs ++ [mkFrame h cb] }}).

Definition cancelAnimationFrame (h : nat) (s : state) : state :=
  s {{ frames ::= List.filter (fun e => negb (Nat.eqb (fh e) h)) }}.

(** [document.createElement] plus the assignments made to the fresh
    element before it is used. *)
Definition createElement (el : element) (s : state) : nat * state :=
  let n := nextHandle s in
  (n, s {{ nextHandle := S n; dom ::= insert n el }}).

Definition console_error (msg : string) (s : state) : state :=
  s {{ consoleLog ::= fun l => l ++ [msg] }}.

(* ------------------------------------------------------------------ *)
(** ** Glitch effects (lines 478-504) *)

Definition stopGlitch (s : state) : state :=
  let s := match glitchTimer s with
           | Some h => (clearTimeout h s) {{ glitchTimer := None }}
           | None => s
           end in
  s {{ glitchShow := false }}.

(** [schedule] of [triggerGlitch]: one random draw, one [setTimeout]. *)
Definition schedule (min max : Q) (owner : nat) (s : state) : state :=
  let '(r, s) := Math_random s in
  let '(h, s) := setTimeout (Bump min max owner) (r * (max - min) + min) s in
  s {{ glitchTimer := Some h }}.

Definition triggerGlitch (min max : Q) (s : state) : state :=
  let s := stopGlitch s in
  schedule min max (session s) s.

(** [bump]: remove and re-add 'show', then [schedule]. *)
Definition bump (min max : Q) (owner : nat) (s : state) : state :=
  schedule min max owner (s {{ glitchShow := true }}).

(* ------------------------------------------------------------------ *)
(** ** Lost-signal effect (lines 375-469) *)

Definition scale : Q := 28 # 100.
Definition fps : Q := 24.
Definition frameInterval : Q := 1000 / fps.
Definition blend : Q := 85 # 100.

(** Number to integer by truncation towards zero ([x | 0] for the small
    values used here). *)
Definition trunc (x : Q) : Z := if Qle_bool 0 x then Qfloor x else (- Qfloor (- x))%Z.

(** The [%] operator on numbers: the sign follows the dividend. *)
Definition js_mod (x n : Q) : Q := x - n * inject_Z (trunc (x / n)).

(** Read and write one byte of a [Uint8ClampedArray].  A write out of
    range is ignored, as for typed arrays. *)
Definition rd (d : list Z) (i : nat) : Q := inject_Z (default 0%Z (d !! i)).
Definition wr (d : list Z) (i : nat) (x : Q) : list Z := <[i := ToUint8Clamp x]> d.
Definition wrz (d : list Z) (i : Z) (x : Q) : list Z :=
  if (i <? 0)%Z then d else wr d (Z.to_nat i) x.

(** [Math.min] on two numbers. *)
Definition Math_min (a b : Q) : Q := if Qle_bool a b then a else b.

(** [ctx.createImageData(w, h)]: transparent black. *)
Definition createImageData (w h : nat) : list Z := repeat 0%Z (4 * w * h).

(** Number of iterations of [for (i = 0; i < data.length; i += 4)]. *)
Definition quads (d : list Z) : nat := Nat.div (length d + 3) 4.

(** Base random static (lines 408-412).  [data[i] = data[i+1] =
    data[i+2] = base] stores [base] at [i+2], then [i+1], then [i]. *)
Fixpoint base_loop (k i : nat) (d : list Z) (s : state) : list Z * state :=
  match k with
  | O => (d, s)
  | S k' =>
      let '(r, s) := Math_random s in
      let base := 100 + r * 70 in
      let d := wr (wr (wr d (i + 2) base) (i + 1) base) i base in
      let d := wr d (i + 3) 255 in
      base_loop k' (i + 4) d s
  end.

Definition base_pass (d : list Z) (s : state) : list Z * state :=
  base_loop (quads d) 0 d s.

(** One row of the drifting band (lines 418-423). *)
Fixpoint band_row_loop (k x : nat) (sw y : nat) (d : list Z) : list Z :=
  match k with
  | O => d
  | S k' =>
      let idx := ((y * sw + x) * 4)%nat in
      let d := wr d idx (Math_min 255 (rd d idx + 10)) in
      let d := wr d (idx + 1) (Math_min 255 (rd d (idx + 1) + 10)) in
      let d := wr d (idx + 2) (Math_min 255 (rd d (idx + 2) + 10)) in
      band_row_loop k' (S x) sw y d
  end.

(** [for (let y = bandY - 3; y < bandY + 3; y++)], skipping rows outside
    the buffer (lines 416-417). *)
Fixpoint band_loop (k : nat) (y : Z) (sw sh : nat) (d : list Z) : list Z :=
  match k with
  | O => d
  | S k' =>
      let d := if (y <? 0)%Z || (Z.of_nat sh <=? y)%Z then d
               else band_row_loop sw 0 sw (Z.to_nat y) d in
      band_loop k' (y + 1)%Z sw sh d
  end.

Definition bandY_of (t' : Q) (sh : nat) : Z :=
  Qfloor (js_mod (t' * 20) (inject_Z (Z.of_nat sh))).

Definition band_pass (sw sh : nat) (bandY : Z) (d : list Z) : list Z :=
  band_loop 6 (bandY - 3)%Z sw sh d.

(** Sparse speckles (lines 427-433). *)
Definition speckle_count (sw sh : nat) : nat :=
  Z.to_nat (Qfloor (inject_Z (Z.of_nat (sw * sh)) * (2 # 1000))).

Fixpoint speckle_loop (k : nat) (sw sh : nat) (d : list Z) (s : state) : list Z * state :=
  match k with
  | O => (d, s)
  | S k' =>
      let '(r1, s) := Math_random s in
      let x := trunc (r1 * inject_Z (Z.of_nat sw)) in
      let '(r2, s) := Math_random s in
      let y := trunc (r2 * inject_Z (Z.of_nat sh)) in
      let idx := ((y * Z.of_nat sw + x) * 4)%Z in
      let d := wrz (wrz (wrz d (idx + 2) 255) (idx + 1) 255) idx 255 in
      speckle_loop k' sw sh d s
  end.

(** Temporal blend with the previous frame (lines 436-443). *)
Fixpoint blend_loop (k i : nat) (p d : list Z) : list Z :=
  match k with
  | O => d
  | S k' =>
      let d := wr d i (rd d i * (1 - blend) + rd p i * blend) in
      let d := wr d (i + 1) (rd d (i + 1) * (1 - blend) + rd p (i + 1) * blend) in
      let d := wr d (i + 2) (rd d (i + 2) * (1 - blend) + rd p (i + 2) * blend) in
      blend_loop k' (i + 4) p d
  end.

Definition blend_pass (pv : option (list Z)) (d : list Z) : list Z :=
  match pv with
  | Some p => if Nat.eqb (length p) (length d) then blend_loop (quads d) 0 p d else d
  | None => d
  end.

(** One call of [drawNoise(now)] up to its final [requestAnimationFrame];
    painting the canvas ([putImageData], [drawImage]) is left out. *)
Definition drawNoise (now : Q) (nz : noise) (s : state) : noise * state :=
  if qltb (now - last nz) frameInterval then (nz, s)
  else
    let dt := (now - last nz) / 1000 in
    let t' := t nz + dt in
    let '(d, s) := base_pass (data nz) s in
    let d := band_pass (smallW nz) (smallH nz) (bandY_of t' (smallH nz)) d in
    let '(d, s) := speckle_loop (speckle_count (smallW nz) (smallH nz))
                                (smallW nz) (smallH nz) d s in
    let d := blend_pass (prev nz) d in
    (nz {{ last := now; t := t'; prev := Some d; data := d }}, s).

(** The closure state right after [startLostSignalEffect]'s setup. *)
Definition start_noise (w h : Q) : noise :=
  let sw := Z.to_nat (Z.max 64 (Qfloor (w * scale))) in
  let sh := Z.to_nat (Z.max 64 (Qfloor (h * scale))) in
  mkNoise w h sw sh 0 0 None (createImageData sw sh).

Definition stopLostSignalEffect (s : state) : state :=
  match lostSignalAnimationId s with
  | Some h => (cancelAnimationFrame h s) {{ lostSignalAnimationId := None }}
  | None => s
  end.

Definition startLostSignalEffect (w h : Q) (s : state) : state :=
  let s := stopLostSignalEffect s in
  let '(hd, s) := requestAnimationFrame (DrawNoise (start_noise w h) (session s)) s in
  s {{ lostSignalAnimationId := Some hd }}.

(** The browser runs a frame callback at timestamp [now]. *)
Definition run_frame (cb : frame_cb) (now : Q) (s : state) : state :=
  match cb with
  | DrawNoise nz o =>
      let '(nz', s) := drawNoise now nz s in
      let '(h, s) := requestAnimationFrame (DrawNoise nz' o) s in
      s {{ lostSignalAnimationId := Some h }}
  end.

(** The browser runs a timer callback. *)
Definition run_timer (cb : timer_cb) (s : state) : state :=
  match cb with
  | Bump min max o => bump min max o s
  | VideoPlayRetry _ => s          (* video.play(): playback is not modelled *)
  end.

(* ------------------------------------------------------------------ *)
(** ** Scene loading (lines 221-366) and the pan button (552-560) *)

(** [String.prototype.toLowerCase] on the ASCII letters. *)
Definition ascii_lower (c : ascii) : ascii :=
  let n := Ascii.nat_of_ascii c in
  if (65 <=? n)%nat && (n <=? 90)%nat then Ascii.ascii_of_nat (n + 32) else c.

Fixpoint toLowerCase (s : string) : string :=
  match s with
  | String c s' => String (ascii_lower c) (toLowerCase s')
  | EmptyString => EmptyString
  end.

Definition endsWith (s suf : string) : bool :=
  let n := String.length s in
  let m := String.length suf in
  (m <=? n)%nat && String.eqb (String.substring (n - m) m s) suf.

Definition NO_CAMERA_FEED : string :=
  "https://placehold.co/1600x600/031018/1d5b72?text=NO+CAMERA+FEED".

(** [if (cam.panEnabled) { el.className = 'pan'; el.style.animationDuration = ... }] *)
Definition apply_pan (cam : camera) (el : element) : element :=
  if panEnabled cam
  then el {{ className := "pan"; animationDuration := Some (panDuration cam) }}
  else el.

Definition set_play_state (n : nat) (v : string) (s : state) : state :=
  s {{ dom ::= alter (fun el => el {{ animationPlayState := Some v }}) n }}.

(** The media branch (lines 262-335): a [<video>] for .mp4/.webm/.mov
    URLs, an [<img>] otherwise. *)
Definition mount_media (cam : camera) (s : state) : state :=
  let url := imageUrl cam in
  let isVideo := negb (String.eqb url "")
                 && (endsWith (toLowerCase url) ".mp4"
                     || endsWith (toLowerCase url) ".webm"
                     || endsWith (toLowerCase url) ".mov") in
  let '(n, s) :=
    if isVideo then
      let '(n, s) := createElement (apply_pan cam (mkElement EVideo url "" "" None None 0 0)) s in
      let '(_, s) := setTimeout (VideoPlayRetry n) 500 s in
      (n, s)
    else
      createElement (apply_pan cam (mkElement EImg (str_or (Some url) NO_CAMERA_FEED)
                                              (location cam) "" None None 0 0)) s in
  s {{ panNode := Some n; viewChildren ::= fun l => l ++ [n] }}.

(** The lost-signal branch (lines 239-261). *)
Definition mount_lost_signal (s : state) : state :=
  let cw := if Qeq_bool (viewW s) 0 then 800 else viewW s in
  let ch := if Qeq_bool (viewH s) 0 then 600 else viewH s in
  let '(n, s) := createElement (mkElement ELostSignal "" "" "lost-signal-container"
                                          None None cw ch) s in
  let s := s {{ viewChildren ::= fun l => l ++ [n]; panNode := None }} in
  startLostSignalEffect cw ch s.

(** Reset of the pan button state (lines 347-352). *)
Definition reset_pan (cam : camera) (s : state) : state :=
  let s := s {{ panPaused := false; toggleLabel := "PAUSE PAN" }} in
  match panNode s with
  | Some n => if panEnabled cam then set_play_state n "running" s else s
  | None => s
  end.

(** Status-specific effects (lines 354-362). *)
Definition status_effects (cam : camera) (s : state) : state :=
  let s := stopGlitch s in
  if String.eqb (status cam) "FLICKER"
  then triggerGlitch (glitchMinMs cam) (glitchMaxMs cam) s
  else if String.eqb (status cam) "INTERFERENCE"
  then triggerGlitch (glitchMinMs cam) (glitchMaxMs cam) s
  else if String.eqb (status cam) "LOST SIGNAL"
  then triggerGlitch (glitchMinMs cam) (glitchMaxMs cam) s
  else s.

Definition loadScene (id' : string) (s : state) : state :=
  match cameras s !! id' with
  | None => console_error ("Camera " +:+ id' +:+ " not found") s
  | Some cam =>
      let s := s {{ activeId := Some id'; session ::= S }} in
      let s := stopLostSignalEffect s in
      let s := s {{ viewChildren := [] }} in
      let s := if String.eqb (status cam) "LOST SIGNAL" then mount_lost_signal s
               else mount_media cam s in
      let s := s {{ labelText := location cam; stateText := status cam;
                    hudLine := hudText cam +:+ "  |  CAMERA: " +:+ toUpperCase (id cam);
                    activeHighlight := Some id' }} in
      let s := reset_pan cam s in
      let s := status_effects cam s in
      s {{ ariaLabel := "Camera " +:+ location cam +:+ ". Status " +:+ status cam +:+ "." }}
  end.

(** The click handler of [togglePanBtn]. *)
Definition togglePan (s : state) : state :=
  let p := negb (panPaused s) in
  let s := s {{ panPaused := p }} in
  let s := match panNode s with
           | Some n => set_play_state n (if p then "paused" else "running") s
           | None => s
           end in
  s {{ toggleLabel := if p then "RESUME PAN" else "PAUSE PAN" }}.

(* ------------------------------------------------------------------ *)
(** ** Runs: the operations and the browser firing callbacks *)

Definition remove_timer (h : nat) (s : state) : state := clearTimeout h s.
Definition remove_frame (h : nat) (s : state) : state := cancelAnimationFrame h s.

Inductive step : state -> state -> Prop :=
  | step_loadScene id' s : step s (loadScene id' s)
  | step_triggerGlitch min max s : step s (triggerGlitch min max s)
  | step_stopGlitch s : step s (stopGlitch s)
  | step_startLost w h s : step s (startLostSignalEffect w h s)
  | step_stopLost s : step s (stopLostSignalEffect s)
  | step_togglePan s : step s (togglePan s)
  | step_timer s e : In e (timers s) -> step s (run_timer (tcb e) (remove_timer (th e) s))
  | step_frame s e now : In e (frames s) -> step s (run_frame (fcb e) now (remove_frame (fh e) s)).

(** The page before [loadCameras] returns: the registry is loaded, nothing
    is shown and nothing is scheduled. *)
Definition init_state (cams : gmap string camera) (r : nat -> Q) (vw vh : Q) : state :=
  {| cameras := cams; activeId := None; panPaused := false; panNode := None;
     glitchTimer := None; lostSignalAnimationId := None; dom := ∅; viewChildren := [];
     glitchShow := false; labelText := "—"; stateText := "—"; hudLine := "";
     toggleLabel := "PAUSE PAN"; ariaLabel := ""; activeHighlight := None;
     viewW := vw; viewH := vh; timers := []; frames := []; nextHandle := 1%nat;
     rnd := r; rpos := 0%nat; consoleLog := []; session := 0%nat |}.

Inductive reachable : state -> Prop :=
  | reach_init cams r vw vh : reachable (init_state cams r vw vh)
  | reach_step s s' : reachable s -> step s s' -> reachable s'.

(* ------------------------------------------------------------------ *)
(** ** The scheduling part of the state *)

(** What the browser has pending, the two handles the page keeps, the
    handle counter, the ghost session counter and the stream of
    [Math.random] values. *)
Record sched := mkSched {
  s_timers : list pending_timer;
  s_frames : list pending_frame;
  s_glitch : option nat;
  s_anim : option nat;
  s_next : nat;
  s_session : nat;
  s_rnd : nat -> Q
}.

Definition sched_of (s : state) : sched :=
  mkSched (timers s) (frames s) (glitchTimer s) (lostSignalAnimationId s)
          (nextHandle s) (session s) (rnd s).

Definition is_bump (e : pending_timer) : bool :=
  match tcb e with Bump _ _ _ => true | VideoPlayRetry _ => false end.

(** The pending glitch timeouts. *)
Definition bumps (ts : list pending_timer) : list pending_timer := List.filter is_bump ts.

Definition owner_ok_t (o : nat) (e : pending_timer) : Prop :=
  match tcb e with Bump _ _ o' => o' = o | VideoPlayRetry _ => True end.

Definition owner_ok_f (o : nat) (e : pending_frame) : Prop :=
  match fcb e with DrawNoise _ o' => o' = o end.

Definition drop_timer (h : nat) (ts : list pending_timer) : list pending_timer :=
  List.filter (fun e => negb (Nat.eqb (th e) h)) ts.

Definition drop_frame (h : nat) (fs : list pending_frame) : list pending_frame :=
  List.filter (fun e => negb (Nat.eqb (fh e) h)) fs.

(** Handles are fresh and distinct. *)
Definition handles_ok (x : sched) : Prop :=
  NoDup (map th (s_timers x))
  /\ Forall (fun e => (th e < s_next x)%nat) (s_timers x)
  /\ Forall (fun e => (fh e < s_next x)%nat) (s_frames x).

(** [glitchTimer] is the handle of the one pending glitch timeout. *)
Definition glitch_ok (x : sched) : Prop :=
  match s_glitch x with
  | Some h => map th (bumps (s_timers x)) = [h]
  | None => bumps (s_timers x) = []
  end.

(** [lostSignalAnimationId] is the handle of the one pending frame. *)
Definition noise_ok (x : sched) : Prop :=
  match s_anim x with
  | Some h => map fh (s_frames x) = [h]
  | None => s_frames x = []
  end.

(** Every pending glitch and noise callback belongs to the current session. *)
Definition owners_ok (x : sched) : Prop :=
  Forall (owner_ok_t (s_session x)) (s_timers x)
  /\ Forall (owner_ok_f (s_session x)) (s_frames x).

Definition sched_inv (x : sched) : Prop :=
  handles_ok x /\ glitch_ok x /\ noise_ok x /\ owners_ok x.

(** The part of [sched_inv] that does not mention the session. *)
Definition core (x : sched) : Prop := handles_ok x /\ glitch_ok x /\ noise_ok x.

(** The shape shared by the band row loop and the blend loop: for each
    pixel from byte [i] on, channels [i], [i+1], [i+2] get [g j v] of
    their value [v]; alpha is left alone. *)
Fixpoint rgb_loop (g : nat -> Q -> Q) (k i : nat) (d : list Z) : list Z :=
  match k with
  | O => d
  | S k' =>
      let d := wr d i (g i (rd d i)) in
      let d := wr d (i + 1) (g (i + 1)%nat (rd d (i + 1))) in
      let d := wr d (i + 2) (g (i + 2)%nat (rd d (i + 2))) in
      rgb_loop g k' (i + 4) d
  end.

(** The buffer of one rendered frame before the blend: the base, band
    and speckle passes of [drawNoise]. *)
Definition pre_blend (now : Q) (nz : noise) (s : state) : list Z * state :=
  let t' := t nz + (now - last nz) / 1000 in
  let '(d, s) := base_pass (data nz) s in
  let d := band_pass (smallW nz) (smallH nz) (bandY_of t' (smallH nz)) d in
  speckle_loop (speckle_count (smallW nz) (smallH nz)) (smallW nz) (smallH nz) d s.

(** A [drawNoise] closure has no previous frame yet, or its previous
    frame is the buffer it last rendered. *)
Definition closure_ok (nz : noise) : Prop := prev nz = None \/ prev nz = Some (data nz).

Definition frame_closure_ok (f : pending_frame) : Prop :=
  match fcb f with DrawNoise nz _ => closure_ok nz end.

(** Every frame of [y] was pending in [x] or has a well-formed closure. *)
Definition fgrows (x y : sched) : Prop :=
  forall f, In f (s_frames y) -> In f (s_frames x) \/ frame_closure_ok f.




(** The displayed part of the state: the DOM heap, [viewEl]'s children,
    [panNode], [panPaused] and the pan button's label. *)
Record view := mkView {
  v_dom : gmap nat element;
  v_children : list nat;
  v_panNode : option nat;
  v_panPaused : bool;
  v_toggle : string
}.

Definition view_of (s : state) : view :=
  mkView (dom s) (viewChildren s) (panNode s) (panPaused s) (toggleLabel s).

(** The state [loadScene] reaches before mounting the new presentation. *)
Definition enter_scene (id' : string) (s : state) : state :=
  (stopLostSignalEffect (s {{ activeId := Some id'; session ::= S }})) {{ viewChildren := [] }}.

Definition play (v : string) (el : element) : element :=
  el {{ animationPlayState := Some v }}.

(** The statuses for which [loadScene] calls [triggerGlitch]. *)
Definition glitch_status (st : string) : Prop :=
  st = "FLICKER" \/ st = "INTERFERENCE" \/ st = "LOST SIGNAL".


(** Sample rows used to exercise the statements below. *)
Definition sample_cam (st url : string) (pan : bool) : camera :=
  mkCamera "cam-01" "North" "Lobby" st "12m" "SECTOR 7" url pan 7 400 1200.

Definition sample_page (cam : camera) : state :=
  init_state {[ "cam-01" := cam ]} (fun _ => 0) 0 0.

(** Rows [0 .. sh-1] whose first byte the band pass changes. *)
Definition band_rows (sw sh : nat) (bandY : Z) (d : list Z) : nat :=
  length (List.filter
    (fun y => negb (bool_decide (band_pass sw sh bandY d !! (4 * (y * sw))%nat
                                 = d !! (4 * (y * sw))%nat)))
    (seq 0 sh)).

(* ------------------------------------------------------------------ *)
(** ** Reading the sheet ([fetchSheetData], [parseSheetData]; lines 64-107) *)

Fixpoint str_rev (s : string) : string :=
  match s with
  | EmptyString => EmptyString
  | String c s' => str_rev s' +:+ String c EmptyString
  end.

(** [String.prototype.trim] on ASCII text: white space off both ends. *)
Definition trim (s : string) : string := str_rev (skip_ws (str_rev (skip_ws s))).

(** [obj[k] = v] with a string [v] on a fresh object: assigning a
    primitive to [__proto__] goes to the inherited setter, which ignores
    it, so no property is created. *)
Definition set_prop (k v : string) (obj : entry) : entry :=
  if String.eqb k "__proto__" then obj else <[k := v]> obj.

(** [headers.forEach((header, index) => { obj[header] = row[index] || '' })] *)
Fixpoint fill_row (hs : list string) (i : nat) (row : list string) (obj : entry) : entry :=
  match hs with
  | [] => obj
  | h :: hs' => fill_row hs' (S i) row (set_prop h (str_or (row !! i) "") obj)
  end.

Definition parseSheetData (rows : list (list string)) : list entry :=
  match rows with
  | [] => []
  | hrow :: dataRows =>
      let headers := map (fun h => toLowerCase (trim h)) hrow in
      map (fun row => fill_row headers 0 row ∅) dataRows
  end.

(** [String(n)] for a natural number: its decimal digits. *)
Definition digit_char (d : nat) : ascii := Ascii.ascii_of_nat (48 + d).

Fixpoint nat_digits (fuel n : nat) (acc : string) : string :=
  match fuel with
  | O => acc
  | S f =>
      let acc := String (digit_char (n mod 10)) acc in
      if (n <? 10)%nat then acc else nat_digits f (n / 10) acc
  end.

Definition js_String_nat (n : nat) : string := nat_digits (S n) n EmptyString.

(** The body of the answer, as [response.json()] reads it: not JSON
    (the promise rejects with [msg]), or an object with an optional
    [error.message] and an optional [values] array. *)
Inductive body :=
  | BodyInvalid (msg : string)
  | BodyJson (errMsg : option string) (values : option (list (list string))).

(** What [fetch(url)] gives: a rejected promise, or a response. *)
Inductive response :=
  | NetworkError (msg : string)
  | Resp (ok : bool) (status_code : nat) (statusText : string) (b : body).

(** [fetchSheetData]: the thrown error's message, or the rows.  The
    request itself (the URL built from [sheetId], [range] and [apiKey])
    is the browser's; its answer is the argument [r]. *)
Definition fetchSheetData (sheetId range apiKey : string) (r : response)
    : string + list (list string) :=
  if String.eqb sheetId "" || String.eqb apiKey "" then
    inl "Sheet ID and API Key must be configured"
  else
    match r with
    | NetworkError m => inl m
    | Resp ok st stt b =>
        if ok then
          match b with
          | BodyInvalid m => inl m
          | BodyJson _ v => inr (default [] v)
          end
        else
          let em := match b with BodyInvalid _ => None | BodyJson e _ => e end in
          inl ("API Error: " +:+ js_String_nat st +:+ " - " +:+ str_or em stt)
    end.

(* ------------------------------------------------------------------ *)
(** ** The camera list ([renderCameraList], [showLoadingState],
       [showErrorState]; lines 172-212, 513-533) *)

(** One entry of [listEl]: a section header, or a camera item with its
    [data-id], [data-state], dot class, and the location and distance
    put into its markup (unescaped, as the template literal does). *)
Inductive list_item :=
  | LSection (name : string)
  | LCam (dataId dataState dot loc dist : string).

(** What [listEl] shows. *)
Inductive list_view :=
  | ListInitial
  | ListLoading                      (* "Loading cameras..." *)
  | ListError (message : string)     (* the ERROR box of [showErrorState] *)
  | ListEmpty                        (* "No cameras found" *)
  | ListItems (items : list list_item).

Definition dotClass (st : string) : string :=
  if String.eqb st "FLICKER" then "warn"
  else if String.eqb st "INTERFERENCE" || String.eqb st "OFFLINE"
          || String.eqb st "LOST SIGNAL" then "err"
  else "ok".

Definition cam_item (cam : camera) : list_item :=
  LCam (id cam) (status cam) (dotClass (status cam)) (location cam) (distance cam).

(** [Array.prototype.sort] without a comparator: by code units, which on
    ASCII text is [String.compare]. *)
Definition str_le (a b : string) : Prop := String.compare a b <> Gt.

#[local] Instance str_le_dec : RelDecision str_le.
Proof. intros a b. unfold str_le. apply _. Defined.

Definition render_section (secs : gmap string (list camera)) (name : string) : list list_item :=
  LSection name :: map cam_item (default [] (secs !! name)).

Definition renderCameraList (secs : gmap string (list camera)) : list_view :=
  match map_to_list secs with
  | [] => ListEmpty
  | _ => ListItems (flat_map (render_section secs) (merge_sort str_le (map fst (map_to_list secs))))
  end.

(* ------------------------------------------------------------------ *)
(** ** Loading the cameras ([loadCameras], lines 114-167) and starting
       the page ([initialize], lines 587-600) *)

(** [Object.keys(cameras)]: the integer-like keys (canonical array
    indices) first in numeric order, then the others in insertion order. *)
Definition is_array_index (k : string) : bool :=
  match take_digits dec_digit 10 k 0 0 with
  | (v, n, rest) =>
      (0 <? n)%nat && String.eqb rest ""
      && (String.eqb k "0"
          || match k with String c _ => negb (Ascii.eqb c "0"%char) | _ => false end)
      && (v <? 4294967295)%Z
  end.

Definition index_value (k : string) : Z := fst (fst (take_digits dec_digit 10 k 0 0)).

Definition index_le (a b : string) : Prop := (index_value a <= index_value b)%Z.

#[local] Instance index_le_dec : RelDecision index_le.
Proof. intros a b. unfold index_le. apply _. Defined.

Definition Object_keys (ks : list string) : list string :=
  merge_sort index_le (List.filter is_array_index ks)
  ++ List.filter (fun k => negb (is_array_index k)) ks.

(** The insertion order of [cameras]' keys: [cameras[camId] = ...] adds
    a key the first time it is written. *)
Definition add_key (ks : list string) (e : entry) : list string :=
  let k := str_or (e !! "camid") "" in
  if String.eqb k "" then ks
  else if existsb (String.eqb k) ks then ks else ks ++ [k].

(** The page with its camera list, the [sections] object, the key order
    of [cameras] and the scene state. *)
Record app := mkApp {
  listView : list_view;
  secs : gmap string (list camera);
  keyOrder : list string;
  scene : state
}.

Definition showLoadingState (a : app) : app :=
  a {{ listView := ListLoading;
       scene := (scene a) {{ labelText := "—"; stateText := "—" }} }}.

Definition showErrorState (message : string) (a : app) : app :=
  a {{ listView := ListError message }}.

Definition CAMS_TAB_NAME : string := "Cams".

(** [loadCameras] with the answer [r] to its request; console output is
    left out. *)
Definition loadCameras (sheetId apiKey : string) (r : response) (a : app) : app :=
  let a := showLoadingState a in
  match fetchSheetData sheetId (CAMS_TAB_NAME +:+ "!A1:Z1000") apiKey r with
  | inl msg => showErrorState ("Failed to load cameras: " +:+ msg) a
  | inr rows =>
      if Nat.eqb (length rows) 0 then showErrorState "No camera data found in Cams sheet" a
      else
        let camEntries := parseSheetData rows in
        let '(cams, sc) := foldl load_entry (cameras (scene a), secs a) camEntries in
        let ks := foldl add_key (keyOrder a) camEntries in
        let a := a {{ secs := sc; keyOrder := ks;
                      scene := (scene a) {{ cameras := cams }} }} in
        let a := a {{ listView := renderCameraList (secs a) }} in
        match Object_keys ks with
        | firstCamId :: _ => a {{ scene := loadScene firstCamId (scene a) }}
        | [] => a
        end
  end.

(** [initialize], with the query string's parameters [query] and the
    built-in [CONFIG.SHEET_ID] / [CONFIG.API_KEY] ([cfg_sheet], [cfg_key];
    lines 26-35: a parameter overrides them when it is non-empty). *)
Definition initialize (cfg_sheet cfg_key : string) (query : gmap string string)
    (r : response) (a : app) : app :=
  let sheetId := str_or (query !! "sheetId") cfg_sheet in
  let apiKey := str_or (query !! "apiKey") cfg_key in
  if String.eqb sheetId "" || String.eqb apiKey "" then
    showErrorState "Sheet ID and API Key must be configured." a
  else loadCameras sheetId apiKey r a.

(** The page before [initialize]: nothing loaded. *)
Definition app_init (r : nat -> Q) (vw vh : Q) : app :=
  mkApp ListInitial ∅ [] (init_state ∅ r vw vh).

(* ------------------------------------------------------------------ *)
(** ** The clock ([updateClock], lines 569-575) *)

Fixpoint rep_str (k : nat) (p : string) : string :=
  match k with O => EmptyString | S k' => p +:+ rep_str k' p end.

(** [String.prototype.padStart(n, pad)]. *)
Definition padStart (s : string) (n : nat) (pad : string) : string :=
  let len := String.length s in
  if (n <=? len)%nat || String.eqb pad "" then s
  else String.substring 0 (n - len) (rep_str (n - len) pad) +:+ s.

Definition clock_text (h m sec : nat) : string :=
  padStart (js_String_nat h) 2 "0" +:+ ":" +:+ padStart (js_String_nat m) 2 "0"
  +:+ ":" +:+ padStart (js_String_nat sec) 2 "0".





(* ------------------------------------------------------------------ *)
(** ** Views used by the proofs *)

(** The camera panel: the registry, the active id, the two labels and
    the highlighted list entry. *)
Definition panel_of (s : state) :=
  (cameras s, activeId s, labelText s, stateText s, activeHighlight s).

(** Every byte of an [ImageData] buffer is in [0, 255]. *)
Definition bytes_ok (d : list Z) : Prop := forall j z, d !! j = Some z -> (0 <= z <= 255)%Z.

(** Every alpha byte (offset 3 of each pixel) is 255. *)
Definition alpha_ok (d : list Z) : Prop :=
  forall j, (j < length d)%nat -> (j mod 4 = 3)%nat -> d !! j = Some 255%Z.

(** The test of [loadScene] choosing a [<video>] (lines 264-268). *)
Definition video_url (url : string) : bool :=
  negb (String.eqb url "")
  && (endsWith (toLowerCase url) ".mp4" || endsWith (toLowerCase url) ".webm"
      || endsWith (toLowerCase url) ".mov").

(** The element [mount_media] appends for a camera. *)
Definition media_element (cam : camera) : element :=
  apply_pan cam (if video_url (imageUrl cam)
                 then mkElement EVideo (imageUrl cam) "" "" None None 0 0
                 else mkElement EImg (str_or (Some (imageUrl cam)) NO_CAMERA_FEED)
                                (location cam) "" None None 0 0).

(** The pan controls agree with the mounted view. *)
Definition view_inv (v : view) : Prop :=
  v_toggle v = (if v_panPaused v then "RESUME PAN" else "PAUSE PAN") /\
  (length (v_children v) <= 1)%nat /\
  forall n, v_panNode v = Some n ->
    v_children v = [n] /\
    exists el, v_dom v !! n = Some el /\ (kind el = EImg \/ kind el = EVideo) /\
      (animationPlayState el = None \/
       animationPlayState el = Some (if v_panPaused v then "paused" else "running")).

(** A property of the noise state carried by a pending animation frame. *)
Definition frame_noise_ok (P : noise -> Prop) (f : pending_frame) : Prop :=
  match fcb f with DrawNoise nz _ => P nz end.

(** The noise buffers as [startLostSignalEffect] allocates them. *)
Definition buffer_ok (nz : noise) : Prop :=
  (64 <= smallW nz)%nat /\ (64 <= smallH nz)%nat /\
  length (data nz) = (4 * smallW nz * smallH nz)%nat /\ bytes_ok (data nz).

(* ------------------------------------------------------------------ *)
(** ** Clicks on the camera list (lines 541-547) *)






Definition witness_query : gmap string string := {[ "sheetId" := "sheet-2" ]}.


(* ================================================================== *)
(** * Proofs *)

(* ------------------------------------------------------------------ *)
(** ** Lists of pending callbacks *)

Lemma bumps_app (ts : list pending_timer) (e : pending_timer) :
  bumps (ts ++ [e]) = bumps ts ++ (if is_bump e then [e] else []).
Proof. unfold bumps. rewrite List.filter_app. simpl. by destruct (is_bump e). Qed.

Lemma bumps_drop (h : nat) (ts : list pending_timer) :
  bumps (drop_timer h ts) = drop_timer h (bumps ts).
Proof.
  induction ts as [|e ts IH]; [done|]. unfold bumps, drop_timer in *. simpl.
  destruct (Nat.eqb (th e) h) eqn:E1, (is_bump e) eqn:E2; simpl;
    rewrite ?E1, ?E2; simpl; rewrite ?E1, ?E2, ?IH; done.
Qed.

Lemma drop_timer_single (h : nat) (l : list pending_timer) :
  map th l = [h] -> drop_timer h l = [].
Proof.
  destruct l as [|e [|e' l]]; simpl; intros Hl; inversion Hl; subst.
  unfold drop_timer. simpl. by rewrite Nat.eqb_refl.
Qed.

Lemma drop_frame_single (h : nat) (l : list pending_frame) :
  map fh l = [h] -> drop_frame h l = [].
Proof.
  destruct l as [|e [|e' l]]; simpl; intros Hl; inversion Hl; subst.
  unfold drop_frame. simpl. by rewrite Nat.eqb_refl.
Qed.

Lemma drop_timer_keep (h : nat) (l : list pending_timer) :
  Forall (fun e => th e <> h) l -> drop_timer h l = l.
Proof.
  induction 1 as [|e l He _ IH]; [done|]. unfold drop_timer in *. simpl.
  apply Nat.eqb_neq in He. rewrite He. simpl. by rewrite IH.
Qed.

Lemma NoDup_map_inj {A B} (f : A -> B) (l : list A) (a b : A) :
  NoDup (map f l) -> In a l -> In b l -> f a = f b -> a = b.
Proof.
  induction l as [|x l IH]; simpl; [tauto|].
  intros Hnd Ha Hb Hf. apply NoDup_cons in Hnd as [Hx Hnd].
  destruct Ha as [<-|Ha], Hb as [<-|Hb]; auto.
  - exfalso. apply Hx. rewrite Hf. apply list_elem_of_In. by apply in_map.
  - exfalso. apply Hx. rewrite <- Hf. apply list_elem_of_In. by apply in_map.
Qed.

Lemma Forall_filter_sub {A} (P : A -> Prop) (p : A -> bool) (l : list A) :
  Forall P l -> Forall P (List.filter p l).
Proof.
  rewrite !List.Forall_forall. intros H x Hx. apply List.filter_In in Hx as [Hx _]. by apply H.
Qed.

Lemma NoDup_map_filter {A B} (f : A -> B) (p : A -> bool) (l : list A) :
  NoDup (map f l) -> NoDup (map f (List.filter p l)).
Proof.
  induction l as [|x l IH]; simpl; [done|]. intros Hnd.
  apply NoDup_cons in Hnd as [Hx Hnd]. destruct (p x); simpl; [|by apply IH].
  apply NoDup_cons; split; [|by apply IH].
  intros Hin. apply Hx. apply list_elem_of_In in Hin. apply list_elem_of_In.
  apply in_map_iff in Hin as (y & <- & Hy). apply List.filter_In in Hy as [Hy _].
  by apply in_map.
Qed.

Lemma NoDup_map_snoc_fresh (l : list pending_timer) (n : nat) (d : Q) (cb : timer_cb) :
  NoDup (map th l) -> Forall (fun e => (th e < n)%nat) l ->
  NoDup (map th (l ++ [mkTimer n d cb])).
Proof.
  intros Hnd Hlt. rewrite map_app. apply NoDup_app. split; [done|]. split.
  - intros x Hx. apply list_elem_of_In, in_map_iff in Hx as (e & <- & He).
    rewrite List.Forall_forall in Hlt. specialize (Hlt e He). simpl.
    rewrite list_elem_of_singleton. lia.
  - simpl. apply NoDup_singleton.
Qed.

Lemma Forall_lt_S {A} (f : A -> nat) (l : list A) (n : nat) :
  Forall (fun e => (f e < n)%nat) l -> Forall (fun e => (f e < S n)%nat) l.
Proof. apply List.Forall_impl. lia. Qed.

Lemma bumps_nil_owners (o : nat) (ts : list pending_timer) :
  bumps ts = [] -> Forall (owner_ok_t o) ts.
Proof.
  induction ts as [|e ts IH]; [constructor|]. unfold bumps. simpl.
  unfold is_bump. destruct (tcb e) eqn:E; [discriminate|]. intros H.
  constructor; [by unfold owner_ok_t; rewrite E|]. by apply IH.
Qed.

(* ------------------------------------------------------------------ *)
(** ** What each operation does to the scheduling state *)

Ltac state_cases s :=
  destruct s as [cams aid pp pn gt la dm vc gs lt stt hl tl al ah vw vh
                 tms frs nh rn rp cl ses].

Lemma sched_Math_random (s : state) : sched_of (Math_random s).2 = sched_of s.
Proof. by state_cases s. Qed.

Lemma sched_stopGlitch (s : state) :
  sched_of (stopGlitch s) =
  mkSched (match glitchTimer s with Some h => drop_timer h (timers s) | None => timers s end)
          (frames s) None (lostSignalAnimationId s) (nextHandle s) (session s) (rnd s).
Proof. state_cases s. by destruct gt. Qed.

Lemma sched_schedule (min max : Q) (o : nat) (s : state) :
  sched_of (schedule min max o s) =
  mkSched (timers s ++ [mkTimer (nextHandle s) (rnd s (rpos s) * (max - min) + min)
                                (Bump min max o)])
          (frames s) (Some (nextHandle s)) (lostSignalAnimationId s)
          (S (nextHandle s)) (session s) (rnd s).
Proof. by state_cases s. Qed.

Lemma sched_stopLost (s : state) :
  sched_of (stopLostSignalEffect s) =
  mkSched (timers s)
          (match lostSignalAnimationId s with Some h => drop_frame h (frames s) | None => frames s end)
          (glitchTimer s) None (nextHandle s) (session s) (rnd s).
Proof. state_cases s. by destruct la. Qed.

Lemma sched_startLost (w h : Q) (s : state) :
  sched_of (startLostSignalEffect w h s) =
  mkSched (timers s)
          ((match lostSignalAnimationId s with Some h => drop_frame h (frames s) | None => frames s end)
             ++ [mkFrame (nextHandle s) (DrawNoise (start_noise w h) (session s))])
          (glitchTimer s) (Some (nextHandle s)) (S (nextHandle s)) (session s) (rnd s).
Proof. state_cases s. by destruct la. Qed.

Lemma sched_base_loop (k i : nat) (d : list Z) (s : state) :
  sched_of (base_loop k i d s).2 = sched_of s.
Proof.
  revert i d s. induction k as [|k IH]; intros i d s; [done|].
  simpl. rewrite IH. by state_cases s.
Qed.

Lemma sched_speckle_loop (k sw sh : nat) (d : list Z) (s : state) :
  sched_of (speckle_loop k sw sh d s).2 = sched_of s.
Proof.
  revert d s. induction k as [|k IH]; intros d s; [done|].
  simpl. rewrite IH. by state_cases s.
Qed.

Lemma sched_drawNoise (now : Q) (nz : noise) (s : state) :
  sched_of (drawNoise now nz s).2 = sched_of s.
Proof.
  unfold drawNoise. destruct (qltb _ _); [done|]. unfold base_pass.
  destruct (base_loop _ _ _ _) as [d1 s1] eqn:E1.
  destruct (speckle_loop _ _ _ _ _) as [d2 s2] eqn:E2. simpl.
  pose proof (sched_speckle_loop (speckle_count (smallW nz) (smallH nz)) (smallW nz)
                (smallH nz) (band_pass (smallW nz) (smallH nz)
                   (bandY_of (t nz + (now - last nz) / 1000) (smallH nz)) d1) s1) as H2.
  rewrite E2 in H2. simpl in H2. rewrite H2.
  pose proof (sched_base_loop (quads (data nz)) 0 (data nz) s) as H1.
  rewrite E1 in H1. exact H1.
Qed.

Lemma sched_run_frame (nz : noise) (o : nat) (now : Q) (s : state) :
  exists nz',
    sched_of (run_frame (DrawNoise nz o) now s) =
    mkSched (timers s) (frames s ++ [mkFrame (nextHandle s) (DrawNoise nz' o)])
            (glitchTimer s) (Some (nextHandle s)) (S (nextHandle s)) (session s) (rnd s).
Proof.
  simpl. destruct (drawNoise now nz s) as [nz' s'] eqn:E. exists nz'.
  pose proof (sched_drawNoise now nz s) as H. rewrite E in H. simpl in H.
  destruct s'. destruct s. unfold sched_of in H. simpl in H.
  inversion H; subst. reflexivity.
Qed.

Lemma sched_set_play_state (n : nat) (v : string) (s : state) :
  sched_of (set_play_state n v s) = sched_of s.
Proof. by state_cases s. Qed.

Lemma sched_togglePan (s : state) : sched_of (togglePan s) = sched_of s.
Proof. state_cases s. unfold togglePan. simpl. by destruct pn. Qed.

Lemma sched_console_error (msg : string) (s : state) :
  sched_of (console_error msg s) = sched_of s.
Proof. by state_cases s. Qed.

Lemma sched_clearTimeout (h : nat) (s : state) :
  sched_of (clearTimeout h s) =
  mkSched (drop_timer h (timers s)) (frames s) (glitchTimer s) (lostSignalAnimationId s)
          (nextHandle s) (session s) (rnd s).
Proof. by state_cases s. Qed.

Lemma sched_cancelAnimationFrame (h : nat) (s : state) :
  sched_of (cancelAnimationFrame h s) =
  mkSched (timers s) (drop_frame h (frames s)) (glitchTimer s) (lostSignalAnimationId s)
          (nextHandle s) (session s) (rnd s).
Proof. by state_cases s. Qed.

(** The media branch may add the [video.play()] retry timer. *)
Lemma sched_mount_media (cam : camera) (s : state) :
  sched_of (mount_media cam s) =
    mkSched (timers s) (frames s) (glitchTimer s) (lostSignalAnimationId s)
            (S (nextHandle s)) (session s) (rnd s)
  \/ sched_of (mount_media cam s) =
    mkSched (timers s ++ [mkTimer (S (nextHandle s)) 500 (VideoPlayRetry (nextHandle s))])
            (frames s) (glitchTimer s) (lostSignalAnimationId s)
            (S (S (nextHandle s))) (session s) (rnd s).
Proof.
  state_cases s. unfold mount_media.
  destruct (negb _ && _); [right|left]; reflexivity.
Qed.

Lemma sched_mount_lost_signal (s : state) :
  exists nz,
    sched_of (mount_lost_signal s) =
    mkSched (timers s)
            ((match lostSignalAnimationId s with
              | Some h => drop_frame h (frames s) | None => frames s end)
               ++ [mkFrame (S (nextHandle s)) (DrawNoise nz (session s))])
            (glitchTimer s) (Some (S (nextHandle s))) (S (S (nextHandle s))) (session s) (rnd s).
Proof.
  state_cases s. unfold mount_lost_signal. simpl.
  eexists. destruct la; reflexivity.
Qed.

(* ------------------------------------------------------------------ *)
(** ** Preservation of the scheduling invariant *)

Lemma stopGlitch_core (s : state) :
  core (sched_of s) ->
  core (sched_of (stopGlitch s)) /\ bumps (s_timers (sched_of (stopGlitch s))) = []
  /\ s_frames (sched_of (stopGlitch s)) = frames s
  /\ s_session (sched_of (stopGlitch s)) = session s
  /\ Forall (owner_ok_t (session s)) (s_timers (sched_of (stopGlitch s))).
Proof.
  rewrite sched_stopGlitch. unfold core, handles_ok, glitch_ok, noise_ok. simpl.
  intros [[Hnd [Ht Hf]] [Hg Hn]].
  assert (Hb : bumps (match glitchTimer s with
                      | Some h => drop_timer h (timers s) | None => timers s end) = []).
  { destruct (glitchTimer s) as [h|]; [|done].
    rewrite bumps_drop. by apply drop_timer_single. }
  repeat split; try done.
  - destruct (glitchTimer s); [by apply NoDup_map_filter|done].
  - destruct (glitchTimer s); [by apply Forall_filter_sub|done].
  - by apply bumps_nil_owners.
Qed.

Lemma schedule_core (min max : Q) (o : nat) (s : state) :
  handles_ok (sched_of s) -> noise_ok (sched_of s) -> bumps (timers s) = [] ->
  Forall (owner_ok_t o) (timers s) ->
  core (sched_of (schedule min max o s))
  /\ Forall (owner_ok_t o) (s_timers (sched_of (schedule min max o s)))
  /\ s_frames (sched_of (schedule min max o s)) = frames s
  /\ s_session (sched_of (schedule min max o s)) = session s.
Proof.
  rewrite sched_schedule. unfold core, handles_ok, glitch_ok, noise_ok. simpl.
  intros [Hnd [Ht Hf]] Hn Hb Ho. repeat split.
  - by apply NoDup_map_snoc_fresh.
  - apply List.Forall_app. split; [by apply Forall_lt_S|]. constructor; simpl; [lia|done].
  - by apply Forall_lt_S.
  - rewrite bumps_app, Hb. reflexivity.
  - exact Hn.
  - apply List.Forall_app. split; [done|]. constructor; [|done]. reflexivity.
Qed.

Lemma triggerGlitch_inv (min max : Q) (s : state) :
  sched_inv (sched_of s) -> sched_inv (sched_of (triggerGlitch min max s)).
Proof.
  intros [Hh [Hg [Hn [Hot Hof]]]]. unfold triggerGlitch.
  destruct (stopGlitch_core s) as [[Hh1 [Hg1 Hn1]] [Hb1 [Hf1 [Hs1 Ho1]]]];
    [by split; [|split]|].
  assert (Hs1' : session (stopGlitch s) = session s) by exact Hs1.
  assert (Hf1' : frames (stopGlitch s) = frames s) by exact Hf1.
  destruct (schedule_core min max (session (stopGlitch s)) (stopGlitch s))
    as [Hc2 [Ho2 [Hf2 Hs2]]]; try done.
  { rewrite Hs1'. exact Ho1. }
  split; [apply Hc2|]. split; [apply Hc2|]. split; [apply Hc2|]. split.
  - rewrite Hs2. exact Ho2.
  - rewrite Hf2, Hs2, Hf1', Hs1'. exact Hof.
Qed.

Lemma stopGlitch_inv (s : state) :
  sched_inv (sched_of s) -> sched_inv (sched_of (stopGlitch s)).
Proof.
  intros [Hh [Hg [Hn [Hot Hof]]]].
  destruct (stopGlitch_core s) as [Hc [Hb [Hf [Hs Ho]]]]; [by split; [|split]|].
  split; [apply Hc|]. split; [apply Hc|]. split; [apply Hc|]. split.
  - rewrite Hs. exact Ho.
  - rewrite Hf, Hs. exact Hof.
Qed.

Lemma stopLost_core (s : state) :
  core (sched_of s) ->
  core (sched_of (stopLostSignalEffect s))
  /\ s_frames (sched_of (stopLostSignalEffect s)) = []
  /\ s_anim (sched_of (stopLostSignalEffect s)) = None
  /\ s_timers (sched_of (stopLostSignalEffect s)) = timers s
  /\ s_session (sched_of (stopLostSignalEffect s)) = session s.
Proof.
  rewrite sched_stopLost. unfold core, handles_ok, glitch_ok, noise_ok. simpl.
  intros [[Hnd [Ht Hf]] [Hg Hn]].
  assert (He : match lostSignalAnimationId s with
               | Some h => drop_frame h (frames s) | None => frames s end = []).
  { destruct (lostSignalAnimationId s) as [h|]; [by apply drop_frame_single|done]. }
  rewrite He. repeat split; done.
Qed.

Lemma stopLost_inv (s : state) :
  sched_inv (sched_of s) -> sched_inv (sched_of (stopLostSignalEffect s)).
Proof.
  intros [Hh [Hg [Hn [Hot Hof]]]].
  destruct (stopLost_core s) as [Hc [Hf [Ha [Ht Hs]]]]; [by split; [|split]|].
  split; [apply Hc|]. split; [apply Hc|]. split; [apply Hc|]. split.
  - rewrite Hs, Ht. exact Hot.
  - rewrite Hf. constructor.
Qed.

Lemma startLost_inv (w h : Q) (s : state) :
  sched_inv (sched_of s) -> sched_inv (sched_of (startLostSignalEffect w h s)).
Proof.
  intros [Hh [Hg [Hn [Hot Hof]]]].
  destruct (stopLost_core s) as [_ [Hf _]]; [by split; [|split]|].
  rewrite sched_stopLost in Hf. simpl in Hf.
  rewrite sched_startLost. rewrite Hf.
  unfold sched_inv, handles_ok, glitch_ok, noise_ok, owners_ok in *. simpl in *.
  destruct Hh as [Hnd [Ht Hfr]].
  repeat split; try done; try by apply Forall_lt_S.
  - repeat constructor; simpl; lia.
  - repeat constructor.
Qed.

Lemma sched_upd_start (a : option string) (s : state) :
  sched_of (s {{ activeId := a; session ::= S }}) =
  mkSched (timers s) (frames s) (glitchTimer s) (lostSignalAnimationId s)
          (nextHandle s) (S (session s)) (rnd s).
Proof. by state_cases s. Qed.

Lemma sched_upd_view (l : list nat) (s : state) :
  sched_of (s {{ viewChildren := l }}) = sched_of s.
Proof. by state_cases s. Qed.

Lemma sched_upd_labels (a b c : string) (d : option string) (s : state) :
  sched_of (s {{ labelText := a; stateText := b; hudLine := c; activeHighlight := d }})
  = sched_of s.
Proof. by state_cases s. Qed.

Lemma sched_upd_aria (a : string) (s : state) :
  sched_of (s {{ ariaLabel := a }}) = sched_of s.
Proof. by state_cases s. Qed.

Lemma sched_reset_pan (cam : camera) (s : state) :
  sched_of (reset_pan cam s) = sched_of s.
Proof.
  state_cases s. unfold reset_pan. simpl. destruct pn; [|done].
  destruct (panEnabled cam); [|done]. by rewrite sched_set_play_state.
Qed.

Lemma status_effects_inv (cam : camera) (s : state) :
  core (sched_of s) -> Forall (owner_ok_f (session s)) (frames s) ->
  sched_inv (sched_of (status_effects cam s)).
Proof.
  intros Hc Hof. unfold status_effects.
  destruct (stopGlitch_core s Hc) as [Hc1 [Hb1 [Hf1 [Hs1 Ho1]]]].
  assert (Hs1' : session (stopGlitch s) = session s) by exact Hs1.
  assert (Hf1' : frames (stopGlitch s) = frames s) by exact Hf1.
  assert (H1 : sched_inv (sched_of (stopGlitch s))).
  { split; [apply Hc1|]. split; [apply Hc1|]. split; [apply Hc1|]. split.
    - rewrite Hs1. exact Ho1.
    - rewrite Hs1, Hf1. exact Hof. }
  repeat (destruct (String.eqb _ _); [by apply triggerGlitch_inv|]). exact H1.
Qed.

Lemma mount_media_core (cam : camera) (s : state) :
  core (sched_of s) -> frames s = [] ->
  core (sched_of (mount_media cam s))
  /\ s_frames (sched_of (mount_media cam s)) = []
  /\ s_session (sched_of (mount_media cam s)) = session s.
Proof.
  intros [[Hnd [Ht Hf]] [Hg Hn]] Hfr.
  destruct (sched_mount_media cam s) as [E|E]; rewrite E;
    unfold core, handles_ok, glitch_ok, noise_ok in *; simpl in *; rewrite Hfr in *.
  - repeat split; try done. by apply Forall_lt_S.
  - repeat split; try done.
    + apply NoDup_map_snoc_fresh; [done|]. by apply Forall_lt_S.
    + apply List.Forall_app. split; [by do 2 apply Forall_lt_S|].
      constructor; simpl; [lia|done].
    + destruct (glitchTimer s); rewrite bumps_app; simpl; by rewrite app_nil_r.
Qed.

Lemma mount_lost_signal_core (s : state) :
  core (sched_of s) -> frames s = [] ->
  core (sched_of (mount_lost_signal s))
  /\ Forall (owner_ok_f (session s)) (s_frames (sched_of (mount_lost_signal s)))
  /\ s_session (sched_of (mount_lost_signal s)) = session s.
Proof.
  intros [[Hnd [Ht Hf]] [Hg Hn]] Hfr.
  destruct (sched_mount_lost_signal s) as [nz E]. rewrite E.
  unfold core, handles_ok, glitch_ok, noise_ok in *. simpl in *. rewrite Hfr.
  assert (Hd : match lostSignalAnimationId s with
               | Some h => drop_frame h [] | None => [] end = []).
  { by destruct (lostSignalAnimationId s). }
  rewrite Hd. simpl. repeat split; try done.
  - by do 2 apply Forall_lt_S.
  - repeat constructor; simpl; lia.
  - repeat constructor.
Qed.

Lemma owners_f_sched (s s' : state) :
  sched_of s = sched_of s' ->
  Forall (owner_ok_f (session s')) (frames s') -> Forall (owner_ok_f (session s)) (frames s).
Proof. unfold sched_of. intros E. injection E. intros _ -> _ _ _ -> _. done. Qed.

Lemma loadScene_inv (id' : string) (s : state) :
  sched_inv (sched_of s) -> sched_inv (sched_of (loadScene id' s)).
Proof.
  intros [Hh [Hg [Hn Ho]]]. unfold loadScene.
  destruct (cameras s !! id') as [cam|];
    [|rewrite sched_console_error; by split; [|split; [|split]]].
  cbv zeta. rewrite sched_upd_aria.
  set (s1 := s {{ activeId := Some id'; session ::= S }}).
  assert (Hc1 : core (sched_of s1)).
  { unfold s1. rewrite sched_upd_start. split; [|split]; done. }
  destruct (stopLost_core s1 Hc1) as [Hc2 [Hf2 [_ [_ Hs2]]]].
  set (s3 := (stopLostSignalEffect s1) {{ viewChildren := [] }}).
  assert (Hc3 : core (sched_of s3)) by (unfold s3; by rewrite sched_upd_view).
  assert (Hf3 : frames s3 = []).
  { change (s_frames (sched_of s3) = []). unfold s3. by rewrite sched_upd_view. }
  assert (H4 : forall s4, s4 = (if String.eqb (status cam) "LOST SIGNAL"
                              then mount_lost_signal s3 else mount_media cam s3) ->
               core (sched_of s4) /\ Forall (owner_ok_f (session s4)) (frames s4)).
  { intros s4 ->. destruct (String.eqb _ _).
    - destruct (mount_lost_signal_core s3 Hc3 Hf3) as [Hc [Hof Hs]].
      split; [done|]. change (session (mount_lost_signal s3)) with
        (s_session (sched_of (mount_lost_signal s3))). by rewrite Hs.
    - destruct (mount_media_core cam s3 Hc3 Hf3) as [Hc [Hfr _]].
      split; [done|]. change (frames (mount_media cam s3)) with
        (s_frames (sched_of (mount_media cam s3))). rewrite Hfr. constructor. }
  destruct (H4 _ eq_refl) as [Hc4 Hof4].
  apply status_effects_inv.
  - rewrite sched_reset_pan, sched_upd_labels. exact Hc4.
  - eapply owners_f_sched; [|exact Hof4].
    rewrite sched_reset_pan, sched_upd_labels. reflexivity.
Qed.

Lemma bumps_single (ts : list pending_timer) (h : nat) :
  map th (bumps ts) = [h] -> exists e', bumps ts = [e'] /\ th e' = h.
Proof.
  destruct (bumps ts) as [|e' [|e'' l]]; simpl; intros E; inversion E. eauto.
Qed.

Lemma In_bumps (e : pending_timer) (ts : list pending_timer) :
  In e ts -> is_bump e = true -> In e (bumps ts).
Proof. intros. unfold bumps. by apply List.filter_In. Qed.

Lemma timer_step_inv (s : state) (e : pending_timer) :
  sched_inv (sched_of s) -> In e (timers s) ->
  sched_inv (sched_of (run_timer (tcb e) (remove_timer (th e) s))).
Proof.
  intros [[Hnd [Ht Hf]] [Hg [Hn [Hot Hof]]]] He. simpl in *.
  assert (Hdrop : sched_of (remove_timer (th e) s) =
                  mkSched (drop_timer (th e) (timers s)) (frames s) (glitchTimer s)
                          (lostSignalAnimationId s) (nextHandle s) (session s) (rnd s))
    by apply sched_clearTimeout.
  destruct (tcb e) as [min max o|n] eqn:Ecb; simpl.
  - (* a glitch pulse: the fired timer was the only pending one *)
    assert (Hb : is_bump e = true) by (unfold is_bump; by rewrite Ecb).
    assert (Hob : o = session s).
    { rewrite List.Forall_forall in Hot. specialize (Hot e He).
      unfold owner_ok_t in Hot. by rewrite Ecb in Hot. }
    assert (Hnil : bumps (drop_timer (th e) (timers s)) = []).
    { unfold glitch_ok in Hg. simpl in Hg. destruct (glitchTimer s) as [h|].
      - destruct (bumps_single _ _ Hg) as (e' & E' & Eh).
        pose proof (In_bumps e (timers s) He Hb) as Hin. rewrite E' in Hin.
        destruct Hin as [<-|[]]. rewrite bumps_drop, E'. apply drop_timer_single.
        simpl. by rewrite Eh.
      - pose proof (In_bumps e (timers s) He Hb) as Hin. by rewrite Hg in Hin. }
    set (X := (remove_timer (th e) s) {{ glitchShow := true }}).
    assert (HX : sched_of X = sched_of (remove_timer (th e) s)) by (unfold X; by state_cases s).
    rewrite Hdrop in HX. unfold bump. fold X.
    destruct (schedule_core min max o X) as [Hc [Ho [Hfr Hs]]].
    + rewrite HX. repeat split; simpl.
      * by apply NoDup_map_filter.
      * by apply Forall_filter_sub.
      * done.
    + rewrite HX. exact Hn.
    + change (bumps (s_timers (sched_of X)) = []). by rewrite HX.
    + change (Forall (owner_ok_t o) (s_timers (sched_of X))). rewrite HX. simpl.
      rewrite Hob. by apply Forall_filter_sub.
    + split; [apply Hc|]. split; [apply Hc|]. split; [apply Hc|]. split.
      * rewrite Hs. change (session X) with (s_session (sched_of X)).
        rewrite HX. simpl. by rewrite <- Hob.
      * rewrite Hfr, Hs. change (frames X) with (s_frames (sched_of X)).
        change (session X) with (s_session (sched_of X)). by rewrite HX.
  - (* the video retry timer *)
    rewrite Hdrop. repeat split; simpl.
    + by apply NoDup_map_filter.
    + by apply Forall_filter_sub.
    + done.
    + unfold glitch_ok in *. simpl in *. rewrite bumps_drop.
      destruct (glitchTimer s) as [h|]; [|by rewrite Hg].
      destruct (bumps_single _ _ Hg) as (e' & E' & Eh). rewrite E'.
      rewrite drop_timer_keep; [simpl; by rewrite Eh|].
      constructor; [|done]. intros Heq.
      assert (Hin' : In e' (timers s)).
      { assert (In e' (bumps (timers s))) as Hb' by (rewrite E'; left; done).
        unfold bumps in Hb'. by apply List.filter_In in Hb' as [? _]. }
      assert (e' = e) as -> by (by apply (NoDup_map_inj th (timers s))).
      assert (In e (bumps (timers s))) as Hb' by (rewrite E'; left; done).
      unfold bumps in Hb'. apply List.filter_In in Hb' as [_ Hb'].
      unfold is_bump in Hb'. by rewrite Ecb in Hb'.
    + exact Hn.
    + by apply Forall_filter_sub.
    + exact Hof.
Qed.

Lemma frame_step_inv (s : state) (e : pending_frame) (now : Q) :
  sched_inv (sched_of s) -> In e (frames s) ->
  sched_inv (sched_of (run_frame (fcb e) now (remove_frame (fh e) s))).
Proof.
  intros [[Hnd [Ht Hf]] [Hg [Hn [Hot Hof]]]] He. simpl in *.
  destruct (fcb e) as [nz o] eqn:Ecb.
  assert (Hob : o = session s).
  { rewrite List.Forall_forall in Hof. specialize (Hof e He).
    unfold owner_ok_f in Hof. by rewrite Ecb in Hof. }
  assert (Hnil : drop_frame (fh e) (frames s) = []).
  { unfold noise_ok in Hn. simpl in Hn. destruct (lostSignalAnimationId s) as [h|].
    - destruct (frames s) as [|e' [|e'' l]] eqn:Ef; simpl in Hn; inversion Hn.
      destruct He as [<-|[]]. apply drop_frame_single. simpl. by f_equal.
    - by rewrite Hn in He. }
  destruct (sched_run_frame nz o now (remove_frame (fh e) s)) as [nz' E].
  rewrite E. unfold remove_frame.
  change (timers (cancelAnimationFrame (fh e) s)) with
    (s_timers (sched_of (cancelAnimationFrame (fh e) s))).
  change (frames (cancelAnimationFrame (fh e) s)) with
    (s_frames (sched_of (cancelAnimationFrame (fh e) s))).
  change (glitchTimer (cancelAnimationFrame (fh e) s)) with
    (s_glitch (sched_of (cancelAnimationFrame (fh e) s))).
  change (nextHandle (cancelAnimationFrame (fh e) s)) with
    (s_next (sched_of (cancelAnimationFrame (fh e) s))).
  change (session (cancelAnimationFrame (fh e) s)) with
    (s_session (sched_of (cancelAnimationFrame (fh e) s))).
  rewrite sched_cancelAnimationFrame. simpl. rewrite Hnil. simpl.
  unfold sched_inv, handles_ok, glitch_ok, noise_ok, owners_ok. simpl.
  repeat split; try done.
  - by apply Forall_lt_S.
  - repeat constructor; simpl; lia.
  - repeat constructor. simpl. done.
Qed.

Lemma init_inv (cams : gmap string camera) (r : nat -> Q) (vw vh : Q) :
  sched_inv (sched_of (init_state cams r vw vh)).
Proof. repeat split; repeat constructor. Qed.

Lemma reachable_inv (s : state) : reachable s -> sched_inv (sched_of s).
Proof.
  induction 1 as [cams r vw vh|s s' _ IH Hstep]; [apply init_inv|].
  destruct Hstep.
  - by apply loadScene_inv.
  - by apply triggerGlitch_inv.
  - by apply stopGlitch_inv.
  - by apply startLost_inv.
  - by apply stopLost_inv.
  - by rewrite sched_togglePan.
  - by apply timer_step_inv.
  - by apply frame_step_inv.
Qed.

Lemma sched_triggerGlitch (min max : Q) (s : state) :
  s_glitch (sched_of (triggerGlitch min max s)) = Some (nextHandle s)
  /\ s_frames (sched_of (triggerGlitch min max s)) = frames s
  /\ s_anim (sched_of (triggerGlitch min max s)) = lostSignalAnimationId s
  /\ s_session (sched_of (triggerGlitch min max s)) = session s.
Proof. state_cases s. by destruct gt. Qed.

Lemma sched_status_effects (cam : camera) (s : state) :
  (s_glitch (sched_of (status_effects cam s)) <> None <-> glitch_status (status cam))
  /\ s_frames (sched_of (status_effects cam s)) = frames s
  /\ s_anim (sched_of (status_effects cam s)) = lostSignalAnimationId s
  /\ s_session (sched_of (status_effects cam s)) = session s.
Proof.
  unfold status_effects, glitch_status.
  assert (Hstop : s_glitch (sched_of (stopGlitch s)) = None
                  /\ s_frames (sched_of (stopGlitch s)) = frames s
                  /\ s_anim (sched_of (stopGlitch s)) = lostSignalAnimationId s
                  /\ s_session (sched_of (stopGlitch s)) = session s)
    by (rewrite sched_stopGlitch; done).
  destruct Hstop as [Hg0 [Hf0 [Ha0 Hs0]]].
  destruct (String.eqb (status cam) "FLICKER") eqn:E1;
  [|destruct (String.eqb (status cam) "INTERFERENCE") eqn:E2;
  [|destruct (String.eqb (status cam) "LOST SIGNAL") eqn:E3]].
  4: { apply String.eqb_neq in E1, E2, E3.
       repeat split; try done. intros []; tauto. }
  all: destruct (sched_triggerGlitch (glitchMinMs cam) (glitchMaxMs cam) (stopGlitch s))
         as [Hg [Hf [Ha Hs]]]; rewrite Hg, Hf, Ha, Hs.
  all: change (frames (stopGlitch s)) with (s_frames (sched_of (stopGlitch s))).
  all: change (lostSignalAnimationId (stopGlitch s)) with (s_anim (sched_of (stopGlitch s))).
  all: change (session (stopGlitch s)) with (s_session (sched_of (stopGlitch s))).
  all: rewrite Hf0, Ha0, Hs0.
  all: repeat split; try done.
  all: try (intros ? ?; discriminate).
  all: intros _; repeat match goal with H : String.eqb _ _ = true |- _ =>
                          apply String.eqb_eq in H end; tauto.
Qed.

(** [loadScene] on a registered camera, as seen from the scheduling state. *)
Lemma sched_loadScene (id' : string) (cam : camera) (s : state) :
  cameras s !! id' = Some cam ->
  let s3 := enter_scene id' s in
  let s4 := if String.eqb (status cam) "LOST SIGNAL" then mount_lost_signal s3
            else mount_media cam s3 in
  sched_of (loadScene id' s) =
  sched_of (status_effects cam (reset_pan cam (s4 {{ labelText := location cam;
      stateText := status cam;
      hudLine := hudText cam +:+ "  |  CAMERA: " +:+ toUpperCase (id cam);
      activeHighlight := Some id' }}))).
Proof. intros Hc. unfold loadScene. rewrite Hc. cbv zeta. by rewrite sched_upd_aria. Qed.

Lemma glitch_ok_iff (x : sched) :
  glitch_ok x -> (s_glitch x <> None <-> bumps (s_timers x) <> []).
Proof.
  unfold glitch_ok. destruct (s_glitch x) as [h|]; intros H; split; try done.
  intros _ E. by rewrite E in H.
Qed.

(** After [loadScene] on a registered camera, what the media branch leaves
    to the scheduling state: no noise frame and no animation handle. *)
Lemma loadScene_media_noise (id' : string) (cam : camera) (s : state) :
  sched_inv (sched_of s) -> cameras s !! id' = Some cam ->
  status cam <> "LOST SIGNAL" ->
  frames (loadScene id' s) = [] /\ lostSignalAnimationId (loadScene id' s) = None.
Proof.
  intros [Hh [Hg [Hn _]]] Hc Hst.
  change (s_frames (sched_of (loadScene id' s)) = []
          /\ s_anim (sched_of (loadScene id' s)) = None).
  rewrite (sched_loadScene id' cam s Hc). cbv zeta.
  apply String.eqb_neq in Hst. rewrite Hst.
  destruct (sched_status_effects cam (reset_pan cam ((mount_media cam
      (enter_scene id' s)) {{ labelText := location cam; stateText := status cam;
      hudLine := hudText cam +:+ "  |  CAMERA: " +:+ toUpperCase (id cam);
      activeHighlight := Some id' }}))) as [_ [Hf [Ha _]]].
  rewrite Hf, Ha.
  change (s_frames (sched_of (reset_pan cam ((mount_media cam
      (enter_scene id' s)) {{ labelText := location cam; stateText := status cam;
      hudLine := hudText cam +:+ "  |  CAMERA: " +:+ toUpperCase (id cam);
      activeHighlight := Some id' }}))) = []
    /\ s_anim (sched_of (reset_pan cam ((mount_media cam
      (enter_scene id' s)) {{ labelText := location cam; stateText := status cam;
      hudLine := hudText cam +:+ "  |  CAMERA: " +:+ toUpperCase (id cam);
      activeHighlight := Some id' }}))) = None).
  rewrite sched_reset_pan, sched_upd_labels. unfold enter_scene.
  set (s1 := s {{ activeId := Some id'; session ::= S }}).
  assert (Hc1 : core (sched_of s1)).
  { unfold s1. rewrite sched_upd_start. split; [|split]; done. }
  destruct (stopLost_core s1 Hc1) as [_ [Hf2 [Ha2 _]]].
  destruct (sched_mount_media cam ((stopLostSignalEffect s1) {{ viewChildren := [] }}))
    as [E|E]; rewrite E; cbn [s_frames s_anim];
  change (frames ((stopLostSignalEffect s1) {{ viewChildren := [] }})) with
    (s_frames (sched_of ((stopLostSignalEffect s1) {{ viewChildren := [] }})));
  change (lostSignalAnimationId ((stopLostSignalEffect s1) {{ viewChildren := [] }})) with
    (s_anim (sched_of ((stopLostSignalEffect s1) {{ viewChildren := [] }})));
  rewrite sched_upd_view; done.
Qed.

Lemma session_sched (s : state) : session s = s_session (sched_of s).
Proof. reflexivity. Qed.

Lemma loadScene_session (id' : string) (cam : camera) (s : state) :
  cameras s !! id' = Some cam -> session (loadScene id' s) = S (session s).
Proof.
  intros Hc. rewrite (session_sched (loadScene id' s)), (sched_loadScene id' cam s Hc).
  cbv zeta. rewrite (proj2 (proj2 (proj2 (sched_status_effects _ _)))).
  rewrite session_sched, sched_reset_pan, sched_upd_labels.
  destruct (String.eqb (status cam) "LOST SIGNAL").
  - destruct (sched_mount_lost_signal
                (enter_scene id' s)) as [nz E].
    rewrite E. cbn [s_session]. unfold enter_scene.
    rewrite session_sched, sched_upd_view, sched_stopLost; cbn [s_session];
    by rewrite session_sched, sched_upd_start.
  - destruct (sched_mount_media cam
                (enter_scene id' s)) as [E|E];
    rewrite E; cbn [s_session]; unfold enter_scene;
    rewrite session_sched, sched_upd_view, sched_stopLost; cbn [s_session];
    by rewrite session_sched, sched_upd_start.
Qed.

(** C2: in every run of the page (selections, glitch and noise start and
    stop calls, pan toggles, and the browser firing any pending timeout or
    animation frame), at most one glitch timeout and at most one noise
    animation frame are pending, and every pending glitch or noise callback
    was started in the current selection ([owner] = [session]); right after
    a camera is selected, every pending callback belongs to that new
    selection, so none started for the previous camera can fire. *)
Theorem single_glitch_timer_and_noise_frame (s : state) :
  reachable s ->
  (length (bumps (timers s)) <= 1)%nat
  /\ (length (frames s) <= 1)%nat
  /\ Forall (owner_ok_t (session s)) (timers s)
  /\ Forall (owner_ok_f (session s)) (frames s)
  /\ (forall (id' : string) (cam : camera), cameras s !! id' = Some cam ->
        Forall (owner_ok_t (S (session s))) (timers (loadScene id' s))
        /\ Forall (owner_ok_f (S (session s))) (frames (loadScene id' s))).
Proof.
  intros Hr. destruct (reachable_inv s Hr) as [_ [Hg [Hn [Hot Hof]]]].
  split; [|split; [|split; [done|split; [done|]]]].
  - unfold glitch_ok in Hg. simpl in Hg. destruct (glitchTimer s).
    + rewrite <- (length_map th), Hg. simpl. lia.
    + rewrite Hg. simpl. lia.
  - unfold noise_ok in Hn. simpl in Hn. destruct (lostSignalAnimationId s).
    + rewrite <- (length_map fh), Hn. simpl. lia.
    + rewrite Hn. simpl. lia.
  - intros id' cam Hc.
    assert (Hr' : reachable (loadScene id' s)) by (eapply reach_step; [exact Hr|constructor]).
    destruct (reachable_inv _ Hr') as [_ [_ [_ [Ho1 Ho2]]]].
    simpl in Ho1, Ho2. rewrite (loadScene_session id' cam s Hc) in Ho1, Ho2. by split.
Qed.

(** C5: selecting a registered camera leaves a glitch pulse scheduled
    exactly when its status is FLICKER, INTERFERENCE or LOST SIGNAL; for
    ONLINE or OFFLINE no glitch timeout is pending, and for OFFLINE no
    noise animation frame is pending and no noise loop handle is kept. *)
Theorem loadScene_glitch_iff_status (s : state) (id' : string) (cam : camera) :
  reachable s -> cameras s !! id' = Some cam ->
  (bumps (timers (loadScene id' s)) <> [] <-> glitch_status (status cam))
  /\ (status cam = "ONLINE" \/ status cam = "OFFLINE" -> bumps (timers (loadScene id' s)) = [])
  /\ (status cam = "OFFLINE" ->
      frames (loadScene id' s) = [] /\ lostSignalAnimationId (loadScene id' s) = None).
Proof.
  intros Hr Hc.
  assert (Hr' : reachable (loadScene id' s)) by (eapply reach_step; [exact Hr|constructor]).
  destruct (reachable_inv _ Hr') as [_ [Hg' _]].
  pose proof (glitch_ok_iff _ Hg') as Hiff. simpl in Hiff.
  assert (HG : glitchTimer (loadScene id' s) <> None <-> glitch_status (status cam)).
  { change (s_glitch (sched_of (loadScene id' s)) <> None <-> glitch_status (status cam)).
    rewrite (sched_loadScene id' cam s Hc). cbv zeta.
    apply sched_status_effects. }
  assert (HI : bumps (timers (loadScene id' s)) <> [] <-> glitch_status (status cam))
    by (rewrite <- Hiff; exact HG).
  split; [exact HI|split].
  - intros Hst. destruct (bumps (timers (loadScene id' s))) eqn:Eb; [done|].
    exfalso. assert (Hgs : glitch_status (status cam)) by (apply HI; rewrite ?Eb; discriminate).
    unfold glitch_status in Hgs.
    destruct Hst as [Hs|Hs]; rewrite Hs in Hgs; destruct Hgs as [H|[H|H]]; discriminate H.
  - intros Hst. apply (loadScene_media_noise id' cam s); [by apply reachable_inv|done|].
    by rewrite Hst.
Qed.

(* ------------------------------------------------------------------ *)
(** ** What [loadScene] displays *)

Lemma view_status_effects (cam : camera) (s : state) :
  view_of (status_effects cam s) = view_of s.
Proof.
  state_cases s. unfold status_effects.
  destruct gt; repeat (destruct (String.eqb _ _)); reflexivity.
Qed.

Lemma view_upd_aria (a : string) (s : state) : view_of (s {{ ariaLabel := a }}) = view_of s.
Proof. by state_cases s. Qed.

Lemma view_upd_labels (a b c : string) (d : option string) (s : state) :
  view_of (s {{ labelText := a; stateText := b; hudLine := c; activeHighlight := d }})
  = view_of s.
Proof. by state_cases s. Qed.

Lemma view_reset_pan (cam : camera) (s : state) :
  view_of (reset_pan cam s) =
  mkView (match panNode s with
          | Some n => if panEnabled cam then alter (play "running") n (dom s) else dom s
          | None => dom s
          end) (viewChildren s) (panNode s) false "PAUSE PAN".
Proof.
  state_cases s. unfold reset_pan. simpl. destruct pn; [|done].
  by destruct (panEnabled cam).
Qed.

Lemma view_togglePan (s : state) :
  view_of (togglePan s) =
  mkView (match panNode s with
          | Some n => alter (play (if negb (panPaused s) then "paused" else "running")) n (dom s)
          | None => dom s
          end) (viewChildren s) (panNode s) (negb (panPaused s))
         (if negb (panPaused s) then "RESUME PAN" else "PAUSE PAN").
Proof. state_cases s. unfold togglePan. simpl. by destruct pn. Qed.

(** The image branch for an empty URL. *)
Lemma view_mount_media_empty (cam : camera) (s : state) :
  imageUrl cam = "" ->
  view_of (mount_media cam s) =
  mkView (<[nextHandle s := apply_pan cam (mkElement EImg NO_CAMERA_FEED (location cam)
                                                    "" None None 0 0)]> (dom s))
         (viewChildren s ++ [nextHandle s]) (Some (nextHandle s))
         (panPaused s) (toggleLabel s).
Proof. intros Hu. state_cases s. unfold mount_media. rewrite Hu. reflexivity. Qed.

(** Either media branch mounts one fresh element and makes it the pan node. *)
Lemma view_mount_media (cam : camera) (s : state) :
  exists n el,
    view_of (mount_media cam s) =
    mkView (<[n := el]> (dom s)) (viewChildren s ++ [n]) (Some n)
           (panPaused s) (toggleLabel s)
    /\ (kind el = EImg \/ kind el = EVideo).
Proof.
  state_cases s. unfold mount_media.
  destruct (negb _ && _); eexists; eexists; split; try reflexivity;
    unfold apply_pan; destruct (panEnabled cam); simpl; auto.
Qed.

Lemma view_mount_lost_signal (s : state) :
  exists n el,
    view_of (mount_lost_signal s) =
    mkView (<[n := el]> (dom s)) (viewChildren s ++ [n]) None (panPaused s) (toggleLabel s)
    /\ kind el = ELostSignal.
Proof.
  state_cases s. unfold mount_lost_signal. simpl.
  destruct la; eexists; eexists; split; reflexivity.
Qed.

Lemma view_stage3 (id' : string) (s : state) :
  viewChildren (enter_scene id' s) = [].
Proof. state_cases s. unfold enter_scene. simpl. by destruct la. Qed.

(** [loadScene] on a registered camera, as seen from the displayed state. *)
Lemma view_loadScene (id' : string) (cam : camera) (s : state) :
  cameras s !! id' = Some cam ->
  let s3 := enter_scene id' s in
  let s4 := if String.eqb (status cam) "LOST SIGNAL" then mount_lost_signal s3
            else mount_media cam s3 in
  view_of (loadScene id' s) =
  mkView (match panNode s4 with
          | Some n => if panEnabled cam then alter (play "running") n (dom s4) else dom s4
          | None => dom s4
          end) (viewChildren s4) (panNode s4) false "PAUSE PAN".
Proof.
  intros Hc. unfold loadScene. rewrite Hc. cbv zeta.
  rewrite view_upd_aria, view_status_effects, view_reset_pan.
  reflexivity.
Qed.

(** C10: for a registered camera whose status is not LOST SIGNAL and whose
    media URL is empty, [loadScene] leaves exactly one child in the view: an
    image whose source is the NO CAMERA FEED placeholder. *)
Theorem loadScene_empty_url_placeholder (s : state) (id' : string) (cam : camera) :
  cameras s !! id' = Some cam ->
  status cam <> "LOST SIGNAL" ->
  imageUrl cam = "" ->
  exists n el,
    viewChildren (loadScene id' s) = [n] /\
    dom (loadScene id' s) !! n = Some el /\
    kind el = EImg /\ src el = NO_CAMERA_FEED.
Proof.
  intros Hc Hs Hu.
  pose proof (view_loadScene id' cam s Hc) as E. cbv zeta in E.
  rewrite (proj2 (String.eqb_neq _ _) Hs) in E.
  pose proof (view_mount_media_empty cam (enter_scene id' s) Hu) as M.
  pose proof (f_equal v_dom M) as Md. pose proof (f_equal v_children M) as Mc.
  pose proof (f_equal v_panNode M) as Mp.
  pose proof (f_equal v_dom E) as Ed. pose proof (f_equal v_children E) as Ec.
  cbn [view_of v_dom v_children v_panNode] in Md, Mc, Mp, Ed, Ec.
  rewrite Mp, Md in Ed. rewrite Mc, view_stage3 in Ec.
  exists (nextHandle (enter_scene id' s)).
  rewrite Ed. unfold apply_pan.
  destruct (panEnabled cam).
  - rewrite lookup_alter_eq, lookup_insert_eq. eexists. split; [exact Ec|auto].
  - rewrite lookup_insert_eq. eexists. split; [exact Ec|auto].
Qed.

Lemma loadScene_pan_reset (id' : string) (cam : camera) (s : state) :
  cameras s !! id' = Some cam ->
  panPaused (loadScene id' s) = false /\ toggleLabel (loadScene id' s) = "PAUSE PAN".
Proof.
  intros Hc. pose proof (view_loadScene id' cam s Hc) as E. cbv zeta in E.
  pose proof (f_equal v_panPaused E) as Ep. pose proof (f_equal v_toggle E) as Et.
  cbn [view_of v_panPaused v_toggle] in Ep, Et. auto.
Qed.

Lemma loadScene_lost_panNode (id' : string) (cam : camera) (s : state) :
  cameras s !! id' = Some cam -> status cam = "LOST SIGNAL" ->
  panNode (loadScene id' s) = None.
Proof.
  intros Hc Hs. pose proof (view_loadScene id' cam s Hc) as E. cbv zeta in E.
  rewrite Hs in E. cbn [String.eqb Ascii.eqb Bool.eqb] in E.
  destruct (view_mount_lost_signal (enter_scene id' s)) as [n [el [M _]]].
  pose proof (f_equal v_panNode E) as Ep. pose proof (f_equal v_panNode M) as Mp.
  cbn [view_of v_panNode] in Ep, Mp. by rewrite Ep, Mp.
Qed.

Lemma loadScene_media_panNode (id' : string) (cam : camera) (s : state) :
  cameras s !! id' = Some cam -> status cam <> "LOST SIGNAL" ->
  exists n el,
    panNode (loadScene id' s) = Some n /\ viewChildren (loadScene id' s) = [n]
    /\ dom (loadScene id' s) !! n = Some (if panEnabled cam then play "running" el else el)
    /\ (kind el = EImg \/ kind el = EVideo).
Proof.
  intros Hc Hs. pose proof (view_loadScene id' cam s Hc) as E. cbv zeta in E.
  rewrite (proj2 (String.eqb_neq _ _) Hs) in E.
  destruct (view_mount_media cam (enter_scene id' s)) as [n [el [M Hk]]].
  pose proof (f_equal v_dom M) as Md. pose proof (f_equal v_children M) as Mc.
  pose proof (f_equal v_panNode M) as Mp.
  pose proof (f_equal v_dom E) as Ed. pose proof (f_equal v_children E) as Ec.
  pose proof (f_equal v_panNode E) as Ep.
  cbn [view_of v_dom v_children v_panNode] in Md, Mc, Mp, Ed, Ec, Ep.
  rewrite Mp, Md in Ed. rewrite Mp in Ep. rewrite Mc, view_stage3 in Ec.
  exists n, el. split; [exact Ep|]. split; [exact Ec|]. split; [|exact Hk].
  rewrite Ed. destruct (panEnabled cam).
  - by rewrite lookup_alter_eq, lookup_insert_eq.
  - by rewrite lookup_insert_eq.
Qed.

Lemma togglePan_flag (s : state) : panPaused (togglePan s) = negb (panPaused s).
Proof. pose proof (f_equal v_panPaused (view_togglePan s)) as E. exact E. Qed.

Lemma togglePan_label (s : state) :
  toggleLabel (togglePan s) = if negb (panPaused s) then "RESUME PAN" else "PAUSE PAN".
Proof. pose proof (f_equal v_toggle (view_togglePan s)) as E. exact E. Qed.

Lemma togglePan_panNode (s : state) : panNode (togglePan s) = panNode s.
Proof. pose proof (f_equal v_panNode (view_togglePan s)) as E. exact E. Qed.

Lemma togglePan_dom (s : state) (n : nat) :
  panNode s = Some n ->
  dom (togglePan s) = alter (play (if negb (panPaused s) then "paused" else "running")) n (dom s).
Proof.
  intros Hn. pose proof (f_equal v_dom (view_togglePan s)) as E.
  cbn [view_of v_dom] in E. by rewrite Hn in E.
Qed.

(** C9 (as the code has it): the pan state of a selection with panning.
    Selecting a registered camera with [panEnabled] clears the paused flag
    and labels the button PAUSE PAN; one toggle then sets the flag and
    the label RESUME PAN.  If the status is not LOST SIGNAL the view shows
    one media element, the pan node, whose play state is running, and the
    toggle sets it to paused; a LOST SIGNAL camera has no pan node, so the
    toggle changes no play state.  Every toggle negates the paused flag. *)
Theorem loadScene_pan_reset_and_toggle (s : state) (id' : string) (cam : camera) :
  cameras s !! id' = Some cam -> panEnabled cam = true ->
  panPaused (loadScene id' s) = false
  /\ toggleLabel (loadScene id' s) = "PAUSE PAN"
  /\ panPaused (togglePan (loadScene id' s)) = true
  /\ toggleLabel (togglePan (loadScene id' s)) = "RESUME PAN"
  /\ (status cam <> "LOST SIGNAL" ->
      exists n el1 el2,
        panNode (loadScene id' s) = Some n /\ viewChildren (loadScene id' s) = [n]
        /\ dom (loadScene id' s) !! n = Some el1
        /\ animationPlayState el1 = Some "running"
        /\ panNode (togglePan (loadScene id' s)) = Some n
        /\ dom (togglePan (loadScene id' s)) !! n = Some el2
        /\ animationPlayState el2 = Some "paused")
  /\ (status cam = "LOST SIGNAL" ->
      panNode (loadScene id' s) = None /\ panNode (togglePan (loadScene id' s)) = None)
  /\ (forall s' : state, panPaused (togglePan s') = negb (panPaused s')).
Proof.
  intros Hc Hp. destruct (loadScene_pan_reset id' cam s Hc) as [Hf Hl].
  split; [exact Hf|]. split; [exact Hl|].
  split; [by rewrite togglePan_flag, Hf|].
  split; [by rewrite togglePan_label, Hf|].
  split; [|split; [|exact togglePan_flag]].
  - intros Hs. destruct (loadScene_media_panNode id' cam s Hc Hs) as [n [el [Hn [Hv [Hd _]]]]].
    rewrite Hp in Hd.
    exists n, (play "running" el), (play "paused" (play "running" el)).
    split; [exact Hn|]. split; [exact Hv|]. split; [exact Hd|]. split; [reflexivity|].
    split; [by rewrite togglePan_panNode|].
    split; [|reflexivity].
    rewrite (togglePan_dom _ n Hn), Hf, lookup_alter_eq, Hd. reflexivity.
  - intros Hs. pose proof (loadScene_lost_panNode id' cam s Hc Hs) as Hn.
    split; [exact Hn|]. by rewrite togglePan_panNode.
Qed.

(** C9 as stated fails: a LOST SIGNAL camera with [panEnabled] is shown
    as the noise canvas, which has no pan node, so after selecting it and
    toggling once no element of the page has play state paused. *)
Lemma pan_toggle_lost_signal_counterexample :
  ~ (forall (s : state) (id' : string) (cam : camera),
       cameras s !! id' = Some cam -> panEnabled cam = true ->
       exists n el, panNode (togglePan (loadScene id' s)) = Some n
                    /\ dom (togglePan (loadScene id' s)) !! n = Some el
                    /\ animationPlayState el = Some "paused").
Proof.
  intros H.
  set (cam := sample_cam "LOST SIGNAL" "" true).
  destruct (H (sample_page cam) "cam-01" cam (lookup_singleton_eq _ _) eq_refl)
    as [n [el [Hn _]]].
  rewrite togglePan_panNode,
    (loadScene_lost_panNode "cam-01" cam _ (lookup_singleton_eq _ _) eq_refl) in Hn.
  discriminate.
Qed.

Lemma loadScene_pan_reset_and_toggle_witness :
  cameras (sample_page (sample_cam "ONLINE" "" true)) !! "cam-01"
    = Some (sample_cam "ONLINE" "" true)
  /\ panEnabled (sample_cam "ONLINE" "" true) = true
  /\ toggleLabel (togglePan (loadScene "cam-01" (sample_page (sample_cam "ONLINE" "" true))))
     = "RESUME PAN".
Proof.
  split; [reflexivity|]. split; [reflexivity|].
  exact (proj1 (proj2 (proj2 (proj2 (loadScene_pan_reset_and_toggle
           (sample_page (sample_cam "ONLINE" "" true)) "cam-01"
           (sample_cam "ONLINE" "" true) eq_refl eq_refl))))).
Defined.

Lemma loadScene_empty_url_placeholder_witness :
  cameras (sample_page (sample_cam "ONLINE" "" false)) !! "cam-01"
    = Some (sample_cam "ONLINE" "" false)
  /\ status (sample_cam "ONLINE" "" false) <> "LOST SIGNAL"
  /\ imageUrl (sample_cam "ONLINE" "" false) = ""
  /\ exists n el,
       viewChildren (loadScene "cam-01" (sample_page (sample_cam "ONLINE" "" false))) = [n]
       /\ dom (loadScene "cam-01" (sample_page (sample_cam "ONLINE" "" false))) !! n = Some el
       /\ kind el = EImg /\ src el = NO_CAMERA_FEED.
Proof.
  split; [reflexivity|]. split; [discriminate|]. split; [reflexivity|].
  apply (loadScene_empty_url_placeholder _ "cam-01" (sample_cam "ONLINE" "" false));
    [reflexivity|discriminate|reflexivity].
Defined.



Lemma single_glitch_timer_and_noise_frame_witness :
  reachable (loadScene "cam-01" (sample_page (sample_cam "FLICKER" "" false)))
  /\ (length (bumps (timers (loadScene "cam-01"
        (sample_page (sample_cam "FLICKER" "" false))))) <= 1)%nat.
Proof.
  assert (Hr : reachable (loadScene "cam-01" (sample_page (sample_cam "FLICKER" "" false))))
    by (eapply reach_step; [apply reach_init|apply step_loadScene]).
  split; [exact Hr|].
  exact (proj1 (single_glitch_timer_and_noise_frame _ Hr)).
Defined.

Lemma loadScene_glitch_iff_status_witness :
  reachable (sample_page (sample_cam "FLICKER" "" false))
  /\ cameras (sample_page (sample_cam "FLICKER" "" false)) !! "cam-01"
     = Some (sample_cam "FLICKER" "" false)
  /\ bumps (timers (loadScene "cam-01" (sample_page (sample_cam "FLICKER" "" false)))) <> [].
Proof.
  split; [apply reach_init|]. split; [reflexivity|].
  apply (proj1 (loadScene_glitch_iff_status (sample_page (sample_cam "FLICKER" "" false))
                  "cam-01" (sample_cam "FLICKER" "" false) (reach_init _ _ _ _) eq_refl)).
  left. reflexivity.
Defined.







(* ------------------------------------------------------------------ *)
(** ** Glitch delays *)




















(* ------------------------------------------------------------------ *)
(** ** The noise buffer *)

Lemma length_wr (d : list Z) (i : nat) (x : Q) : length (wr d i x) = length d.
Proof. apply length_insert. Qed.

Lemma lookup_wr_eq (d : list Z) (i : nat) (x : Q) :
  (i < length d)%nat -> wr d i x !! i = Some (ToUint8Clamp x).
Proof. apply list_lookup_insert_eq. Qed.

Lemma lookup_wr_ne (d : list Z) (i j : nat) (x : Q) : i <> j -> wr d i x !! j = d !! j.
Proof. apply list_lookup_insert_ne. Qed.

Lemma rd_wr_ne (d : list Z) (i j : nat) (x : Q) : i <> j -> rd (wr d i x) j = rd d j.
Proof. intros H. unfold rd. by rewrite lookup_wr_ne. Qed.

Lemma length_wrz (d : list Z) (i : Z) (x : Q) : length (wrz d i x) = length d.
Proof. unfold wrz. destruct (i <? 0)%Z; [done|apply length_wr]. Qed.

Ltac nat_tests :=
  repeat match goal with
  | |- context [Nat.leb ?a ?b] => destruct (Nat.leb_spec a b)
  | |- context [Nat.ltb ?a ?b] => destruct (Nat.ltb_spec a b)
  end; simpl.

Lemma rgb_loop_length (g : nat -> Q -> Q) (k i : nat) (d : list Z) :
  length (rgb_loop g k i d) = length d.
Proof.
  revert i d. induction k as [|k IH]; intros i d; [done|]. simpl.
  by rewrite IH, !length_wr.
Qed.

(** Byte [j] after the loop: a color channel of one of the [k] pixels from
    byte [i0] on is [g j] of its value before the loop; any other byte is
    unchanged. *)
Lemma rgb_loop_spec (g : nat -> Q -> Q) (k i0 : nat) (d : list Z) (j : nat) :
  (j < length d)%nat ->
  rgb_loop g k i0 d !! j =
  if (i0 <=? j)%nat && (j <? i0 + 4 * k)%nat && negb (Nat.eqb ((j - i0) mod 4) 3)
  then Some (ToUint8Clamp (g j (rd d j)))
  else d !! j.
Proof.
  revert i0 d. induction k as [|k IH]; intros i0 d Hj.
  - simpl. nat_tests; try lia; reflexivity.
  - cbn [rgb_loop].
    rewrite IH by (rewrite !length_wr; exact Hj).
    destruct (decide (i0 + 4 <= j)%nat) as [Hge|Hlt].
    + assert (Hm : ((j - i0) mod 4 = (j - (i0 + 4)) mod 4)%nat).
      { replace (j - i0)%nat with ((j - (i0 + 4)) + 1 * 4)%nat by lia.
        apply Nat.Div0.mod_add. }
      rewrite Hm. rewrite !rd_wr_ne by lia. rewrite !lookup_wr_ne by lia.
      nat_tests; try lia; reflexivity.
    + destruct (decide (j < i0)%nat).
      * rewrite !lookup_wr_ne by lia. nat_tests; try lia; reflexivity.
      * assert (j = i0 \/ j = i0 + 1 \/ j = i0 + 2 \/ j = i0 + 3)%nat as Hc by lia.
        destruct Hc as [-> | [-> | [-> | ->]]].
        -- replace (i0 - i0)%nat with 0%nat by lia. nat_tests; try lia.
           rewrite !lookup_wr_ne by lia. rewrite lookup_wr_eq by lia. reflexivity.
        -- replace (i0 + 1 - i0)%nat with 1%nat by lia. nat_tests; try lia.
           rewrite !lookup_wr_ne by lia. rewrite lookup_wr_eq by (rewrite length_wr; lia).
           rewrite rd_wr_ne by lia. reflexivity.
        -- replace (i0 + 2 - i0)%nat with 2%nat by lia. nat_tests; try lia.
           rewrite lookup_wr_eq by (rewrite !length_wr; lia).
           rewrite !rd_wr_ne by lia. reflexivity.
        -- replace (i0 + 3 - i0)%nat with 3%nat by lia. nat_tests; try lia.
           rewrite !lookup_wr_ne by lia. reflexivity.
Qed.

Lemma blend_loop_rgb (k i : nat) (p d : list Z) :
  blend_loop k i p d = rgb_loop (fun j v => v * (1 - blend) + rd p j * blend) k i d.
Proof. revert i d. induction k as [|k IH]; intros i d; [done|]. simpl. apply IH. Qed.

Lemma band_row_loop_rgb (k x sw y : nat) (d : list Z) :
  band_row_loop k x sw y d = rgb_loop (fun _ v => Math_min 255 (v + 10)) k ((y * sw + x) * 4) d.
Proof.
  revert x d. induction k as [|k IH]; intros x d; [done|]. simpl. rewrite IH.
  f_equal. lia.
Qed.

Lemma ToUint8Clamp_255 : ToUint8Clamp 255 = 255%Z.
Proof. reflexivity. Qed.

(** On a byte value the clamped store is the identity. *)
Lemma ToUint8Clamp_Z (n : Z) : (0 <= n <= 255)%Z -> ToUint8Clamp (inject_Z n) = n.
Proof.
  intros Hn. unfold ToUint8Clamp.
  destruct (Qle_bool (inject_Z n) 0) eqn:E0.
  { apply Qle_bool_iff in E0. change (inject_Z n <= inject_Z 0) in E0.
    rewrite <- Zle_Qle in E0. assert (n = 0)%Z as -> by lia. reflexivity. }
  destruct (Qle_bool 255 (inject_Z n)) eqn:E1.
  { apply Qle_bool_iff in E1. change (inject_Z 255 <= inject_Z n) in E1.
    rewrite <- Zle_Qle in E1. lia. }
  cbv zeta. rewrite Qfloor_Z. unfold qltb.
  destruct (Qle_bool (inject_Z n) (inject_Z n + (1 # 2))) eqn:E2.
  - simpl. destruct (Qle_bool (inject_Z n + (1 # 2)) (inject_Z n)) eqn:E3; simpl.
    + apply Qle_bool_iff in E3. lra.
    + reflexivity.
  - apply not_true_iff_false in E2. exfalso. apply E2, Qle_bool_iff. lra.
Qed.


Lemma base_loop_length (k i : nat) (d : list Z) (s : state) :
  length (base_loop k i d s).1 = length d.
Proof.
  revert i d s. induction k as [|k IH]; intros i d s; [done|]. simpl.
  by rewrite IH, !length_wr.
Qed.

(** Byte [j] after [k] steps of the base loop from byte [i0]: the alpha
    byte of a visited pixel is 255, its color bytes hold the clamped
    [100 + r * 70] of the pixel's own draw [r]; other bytes are kept. *)
Lemma base_loop_spec (k i0 : nat) (d : list Z) (s : state) (j : nat) :
  (j < length d)%nat ->
  (base_loop k i0 d s).1 !! j =
  if (i0 <=? j)%nat && (j <? i0 + 4 * k)%nat
  then Some (if Nat.eqb ((j - i0) mod 4) 3 then 255%Z
             else ToUint8Clamp (100 + rnd s (rpos s + (j - i0) / 4) * 70))
  else d !! j.
Proof.
  revert i0 d s. induction k as [|k IH]; intros i0 d s Hj.
  - simpl. nat_tests; try lia; reflexivity.
  - cbn [base_loop Math_random fst snd].
    rewrite IH by (rewrite ?length_wr; exact Hj).
    assert (Hr : rnd (s {{ rpos ::= S }}) = rnd s) by reflexivity.
    assert (Hp : rpos (s {{ rpos ::= S }}) = S (rpos s)) by reflexivity.
    rewrite Hr, Hp.
    destruct (decide (i0 + 4 <= j)%nat) as [Hge|Hlt].
    + replace (j - i0)%nat with ((j - (i0 + 4)) + 1 * 4)%nat by lia.
      rewrite Nat.Div0.mod_add, Nat.div_add by lia.
      rewrite !lookup_wr_ne by lia.
      replace (S (rpos s) + (j - (i0 + 4)) / 4)%nat
        with (rpos s + ((j - (i0 + 4)) / 4 + 1))%nat by lia.
      nat_tests; try lia; reflexivity.
    + destruct (decide (j < i0)%nat).
      * rewrite !lookup_wr_ne by lia. nat_tests; try lia; reflexivity.
      * assert (j = i0 \/ j = i0 + 1 \/ j = i0 + 2 \/ j = i0 + 3)%nat as Hc by lia.
        destruct Hc as [-> | [-> | [-> | ->]]].
        -- replace (i0 - i0)%nat with 0%nat by lia. nat_tests; try lia.
           rewrite lookup_wr_ne by lia. rewrite lookup_wr_eq by (rewrite ?length_wr; lia).
           by rewrite Nat.add_0_r.
        -- replace (i0 + 1 - i0)%nat with 1%nat by lia. nat_tests; try lia.
           rewrite !lookup_wr_ne by lia. rewrite lookup_wr_eq by (rewrite ?length_wr; lia).
           by rewrite Nat.add_0_r.
        -- replace (i0 + 2 - i0)%nat with 2%nat by lia. nat_tests; try lia.
           rewrite !lookup_wr_ne by lia. rewrite lookup_wr_eq by (rewrite ?length_wr; lia).
           by rewrite Nat.add_0_r.
        -- replace (i0 + 3 - i0)%nat with 3%nat by lia. nat_tests; try lia.
           rewrite lookup_wr_eq by (rewrite ?length_wr; lia). reflexivity.
Qed.

(** One row of the band, at pixel [(x', y')], channel [c]. *)
Lemma band_row_spec (sw y : nat) (d : list Z) (x' y' c : nat) :
  (x' < sw)%nat -> (c < 4)%nat -> (4 * (y' * sw + x') + c < length d)%nat ->
  band_row_loop sw 0 sw y d !! (4 * (y' * sw + x') + c)%nat =
  if Nat.eqb y' y && (c <? 3)%nat
  then Some (ToUint8Clamp (Math_min 255 (rd d (4 * (y' * sw + x') + c) + 10)))
  else d !! (4 * (y' * sw + x') + c)%nat.
Proof.
  intros Hx Hc Hl. rewrite band_row_loop_rgb, rgb_loop_spec by exact Hl.
  destruct (Nat.eqb_spec y' y) as [->|Hne].
  - replace (4 * (y * sw + x') + c - (y * sw + 0) * 4)%nat with (c + x' * 4)%nat by lia.
    rewrite Nat.Div0.mod_add, (Nat.mod_small c 4) by lia.
    destruct (Nat.eqb_spec c 3) as [->|Hc3]; nat_tests; try lia; reflexivity.
  - destruct (decide (y' < y)%nat).
    + assert (y' * sw + x' < y * sw)%nat by nia.
      nat_tests; try lia; reflexivity.
    + assert (y * sw + sw <= y' * sw)%nat by nia.
      nat_tests; try lia; reflexivity.
Qed.

Lemma band_row_loop_length (k x sw y : nat) (d : list Z) :
  length (band_row_loop k x sw y d) = length d.
Proof. rewrite band_row_loop_rgb. apply rgb_loop_length. Qed.

Lemma band_loop_length (k : nat) (y : Z) (sw sh : nat) (d : list Z) :
  length (band_loop k y sw sh d) = length d.
Proof.
  revert y d. induction k as [|k IH]; intros y d; [done|]. simpl. rewrite IH.
  destruct (_ || _)%bool; [done|]. apply band_row_loop_length.
Qed.

(** The band rows [y0 .. y0 + k - 1] that lie in the buffer, at pixel
    [(x', y')], channel [c]. *)
Lemma band_loop_spec (k : nat) (y0 : Z) (sw sh : nat) (d : list Z) (x' y' c : nat) :
  (x' < sw)%nat -> (y' < sh)%nat -> (c < 4)%nat -> (4 * (y' * sw + x') + c < length d)%nat ->
  band_loop k y0 sw sh d !! (4 * (y' * sw + x') + c)%nat =
  if (y0 <=? Z.of_nat y')%Z && (Z.of_nat y' <? y0 + Z.of_nat k)%Z && (c <? 3)%nat
  then Some (ToUint8Clamp (Math_min 255 (rd d (4 * (y' * sw + x') + c) + 10)))
  else d !! (4 * (y' * sw + x') + c)%nat.
Proof.
  intros Hx Hy Hc. revert y0 d. induction k as [|k IH]; intros y0 d Hl.
  - cbn [band_loop]. change (Z.of_nat 0) with 0%Z. rewrite Z.add_0_r.
    destruct (Z.leb_spec y0 (Z.of_nat y')), (Z.ltb_spec (Z.of_nat y') y0);
      try lia; reflexivity.
  - cbn [band_loop].
    set (d1 := if ((y0 <? 0)%Z || (Z.of_nat sh <=? y0)%Z)%bool then d
               else band_row_loop sw 0 sw (Z.to_nat y0) d).
    assert (Hl1 : length d1 = length d).
    { unfold d1. destruct (_ || _)%bool; [done|]. apply band_row_loop_length. }
    rewrite IH by lia.
    assert (Hd1 : Z.of_nat y' <> y0 ->
                  d1 !! (4 * (y' * sw + x') + c)%nat = d !! (4 * (y' * sw + x') + c)%nat).
    { intros Hne. unfold d1.
      destruct (Z.ltb_spec y0 0), (Z.leb_spec (Z.of_nat sh) y0); cbn [orb]; try done.
      rewrite band_row_spec by lia.
      destruct (Nat.eqb_spec y' (Z.to_nat y0)); [lia|done]. }
    destruct (Z.eq_dec (Z.of_nat y') y0) as [<-|Hne].
    + unfold d1. destruct (Z.ltb_spec (Z.of_nat y') 0); [lia|].
      destruct (Z.leb_spec (Z.of_nat sh) (Z.of_nat y')); [lia|]. cbn [orb].
      rewrite band_row_spec by lia. rewrite Nat2Z.id, Nat.eqb_refl. simpl.
      destruct (Z.leb_spec (Z.of_nat y' + 1) (Z.of_nat y')); [lia|].
      destruct (Z.leb_spec (Z.of_nat y') (Z.of_nat y')); [|lia].
      destruct (Z.ltb_spec (Z.of_nat y') (Z.of_nat y' + Z.of_nat (S k))); [|lia].
      reflexivity.
    + unfold rd at 1. rewrite (Hd1 Hne). fold (rd d (4 * (y' * sw + x') + c)).
      destruct (Z.leb_spec (y0 + 1) (Z.of_nat y')), (Z.leb_spec y0 (Z.of_nat y'));
        try lia;
        destruct (Z.ltb_spec (Z.of_nat y') (y0 + 1 + Z.of_nat k)),
                 (Z.ltb_spec (Z.of_nat y') (y0 + Z.of_nat (S k)));
        try lia; reflexivity.
Qed.

Lemma speckle_loop_length (k sw sh : nat) (d : list Z) (s : state) :
  length (speckle_loop k sw sh d s).1 = length d.
Proof.
  revert d s. induction k as [|k IH]; intros d s; [done|]. simpl.
  by rewrite IH, !length_wrz.
Qed.

Lemma pre_blend_length (now : Q) (nz : noise) (s : state) :
  length (pre_blend now nz s).1 = length (data nz).
Proof.
  unfold pre_blend, base_pass.
  pose proof (base_loop_length (quads (data nz)) 0 (data nz) s) as H1.
  destruct (base_loop _ _ _ _) as [d1 s1]. simpl in H1.
  rewrite speckle_loop_length. unfold band_pass. by rewrite band_loop_length.
Qed.

(** A call of [drawNoise] that renders: the buffer is the blend of the
    pre-blend buffer with [prev], and it becomes the new [prev]. *)
Lemma drawNoise_render (now : Q) (nz : noise) (s : state) :
  qltb (now - last nz) frameInterval = false ->
  drawNoise now nz s =
  (nz {{ last := now; t := t nz + (now - last nz) / 1000;
         prev := Some (blend_pass (prev nz) (pre_blend now nz s).1);
         data := blend_pass (prev nz) (pre_blend now nz s).1 }},
   (pre_blend now nz s).2).
Proof.
  intros H. unfold drawNoise, pre_blend. rewrite H.
  destruct (base_pass _ _) as [d1 s1]. destruct (speckle_loop _ _ _ _ _) as [d2 s2].
  reflexivity.
Qed.

(** A call that comes too early renders nothing and keeps the closure. *)
Lemma drawNoise_skip (now : Q) (nz : noise) (s : state) :
  qltb (now - last nz) frameInterval = true -> drawNoise now nz s = (nz, s).
Proof. intros H. unfold drawNoise. by rewrite H. Qed.


Lemma quads_cover (d : list Z) (i : nat) : (i < length d)%nat -> (i < 4 * quads d)%nat.
Proof.
  intros H. unfold quads.
  pose proof (Nat.div_mod (length d + 3) 4 ltac:(lia)) as E.
  pose proof (Nat.mod_upper_bound (length d + 3) 4 ltac:(lia)). lia.
Qed.


(* ------------------------------------------------------------------ *)
(** ** The closures of the pending noise frames *)


Lemma frames_sched (s : state) : frames s = s_frames (sched_of s).
Proof. reflexivity. Qed.



Lemma In_drop_frame (h : nat) (f : pending_frame) (fs : list pending_frame) :
  In f (drop_frame h fs) -> In f fs.
Proof. unfold drop_frame. intros Hf. by apply List.filter_In in Hf as [? _]. Qed.






Lemma frames_mount_lost_signal (s : state) :
  exists cw ch,
    frames (mount_lost_signal s) =
    (match lostSignalAnimationId s with
     | Some h => drop_frame h (frames s) | None => frames s end)
      ++ [mkFrame (S (nextHandle s)) (DrawNoise (start_noise cw ch) (session s))].
Proof.
  state_cases s. unfold mount_lost_signal. simpl.
  eexists; eexists. destruct la; reflexivity.
Qed.




Lemma frames_run_frame (nz : noise) (o : nat) (now : Q) (s : state) :
  frames (run_frame (DrawNoise nz o) now s) =
  frames s ++ [mkFrame (nextHandle s) (DrawNoise (drawNoise now nz s).1 o)].
Proof.
  simpl. destruct (drawNoise now nz s) as [nz' s'] eqn:E.
  pose proof (sched_drawNoise now nz s) as H. rewrite E in H. simpl in H.
  destruct s'. destruct s. unfold sched_of in H. simpl in H.
  inversion H; subst. reflexivity.
Qed.




Lemma band_add_Z (v : Z) :
  (0 <= v <= 255)%Z -> ToUint8Clamp (Math_min 255 (inject_Z v + 10)) = Z.min 255 (v + 10).
Proof.
  intros Hv. unfold Math_min.
  change (inject_Z v + 10) with (inject_Z v + inject_Z 10). rewrite <- inject_Z_plus.
  destruct (Qle_bool 255 (inject_Z (v + 10))) eqn:E.
  - apply Qle_bool_iff in E. change 255 with (inject_Z 255) in E.
    rewrite <- Zle_Qle in E. rewrite ToUint8Clamp_255. lia.
  - assert (E' : ~ inject_Z 255 <= inject_Z (v + 10)).
    { intros H. apply Qle_bool_iff in H. change (inject_Z 255) with 255 in H. congruence. }
    rewrite <- Zle_Qle in E'. rewrite ToUint8Clamp_Z by lia. lia.
Qed.

(** C8 as stated fails: the band rows run from [bandY - 3] to
    [bandY + 2] and rows outside the buffer are skipped, so near the top
    edge fewer than six rows are brightened.  On a 64-row buffer at
    [t = 1/24 s] (the first rendered frame at 24 fps), [bandY = 0] and only
    rows 0, 1 and 2 change. *)
Lemma band_six_rows_counterexample :
  ~ (forall (sw sh : nat) (t' : Q) (d : list Z),
       (0 < sw)%nat -> (6 <= sh)%nat -> length d = (4 * sw * sh)%nat ->
       Forall (fun v => 0 <= v <= 245)%Z d ->
       band_rows sw sh (bandY_of t' sh) d = 6%nat).
Proof.
  intros H.
  specialize (H 1%nat 64%nat (1 # 24) (repeat 100%Z 256)).
  assert (E : band_rows 1 64 (bandY_of (1 # 24) 64) (repeat 100%Z 256) = 3%nat)
    by (vm_compute; reflexivity).
  rewrite E in H. discriminate H; [lia|lia|reflexivity|].
  apply List.Forall_forall. intros v Hv. apply repeat_spec in Hv. lia.
Qed.

(** C8 (corrected): the band pass changes byte [c] of pixel [(x, y)] of
    the [sw x sh] buffer exactly when [bandY - 3 <= y < bandY + 3] and
    [c] is a colour channel; there it stores [min(255, v + 10)]; every
    other byte keeps its value.  Rows of the band outside the buffer are
    skipped, so the stripe is six rows tall only when it lies inside.  In
    [drawNoise] the band is drawn at [bandY_of t' smallH], the floor of
    [(t' * 20) % smallH]. *)
Theorem band_pass_rows (sw sh : nat) (bandY : Z) (d : list Z) (x y c : nat) (v : Z) :
  (x < sw)%nat -> (y < sh)%nat -> (c < 4)%nat ->
  d !! (4 * (y * sw + x) + c)%nat = Some v -> (0 <= v <= 255)%Z ->
  band_pass sw sh bandY d !! (4 * (y * sw + x) + c)%nat =
  if (bandY - 3 <=? Z.of_nat y)%Z && (Z.of_nat y <? bandY + 3)%Z && (c <? 3)%nat
  then Some (Z.min 255 (v + 10)) else Some v.
Proof.
  intros Hx Hy Hc Hv Hr. unfold band_pass.
  pose proof (lookup_lt_Some _ _ _ Hv) as Hl.
  rewrite band_loop_spec by assumption.
  replace (bandY - 3 + Z.of_nat 6)%Z with (bandY + 3)%Z by lia.
  unfold rd. rewrite Hv. cbn [default].
  destruct (_ && _ && _); [|reflexivity].
  by rewrite band_add_Z.
Qed.

Lemma band_pass_rows_witness :
  band_pass 1 8 0 (repeat 100%Z 32) !! (4 * (0 * 1 + 0) + 0)%nat = Some 110%Z.
Proof.
  rewrite (band_pass_rows 1 8 0 (repeat 100%Z 32) 0 0 0 100); [reflexivity|lia|lia|lia|
    reflexivity|lia].
Defined.







(* ------------------------------------------------------------------ *)
(** ** Reading the sheet *)







(* ------------------------------------------------------------------ *)
(** ** The registry and the sections built by [loadCameras] *)





















(* ------------------------------------------------------------------ *)
(** ** Further properties of the page *)

Lemma panel_stopGlitch (s : state) : panel_of (stopGlitch s) = panel_of s.
Proof. state_cases s. by destruct gt. Qed.
























Lemma str_or_nonempty (o : option string) (d : string) : d <> "" -> str_or o d <> "".
Proof. intros Hd. destruct o as [s|]; simpl; [|done]. by destruct (String.eqb_spec s ""). Qed.

(** [initialize]: the [sheetId] and [apiKey] query parameters override
    the configured values when present and non-empty, the values used are
    never empty when the configured ones are not, and the cameras are
    loaded with them. *)
Theorem initialize_requests (cfg_sheet cfg_key : string) (query : gmap string string)
    (resp : response) (a : app) :
  cfg_sheet <> "" -> cfg_key <> "" ->
  let sheetId := str_or (query !! "sheetId") cfg_sheet in
  let apiKey := str_or (query !! "apiKey") cfg_key in
  sheetId <> "" /\ apiKey <> "" /\
  (forall v, query !! "sheetId" = Some v -> v <> "" -> sheetId = v) /\
  (forall v, query !! "apiKey" = Some v -> v <> "" -> apiKey = v) /\
  initialize cfg_sheet cfg_key query resp a = loadCameras sheetId apiKey resp a.
Proof.
  intros Hs Hk sheetId apiKey.
  assert (H1 : sheetId <> "") by (apply str_or_nonempty, Hs).
  assert (H2 : apiKey <> "") by (apply str_or_nonempty, Hk).
  split; [exact H1|split; [exact H2|split; [|split]]].
  - intros v Hv Hne. subst sheetId. rewrite Hv. simpl. by destruct (String.eqb_spec v "").
  - intros v Hv Hne. subst apiKey. rewrite Hv. simpl. by destruct (String.eqb_spec v "").
  - unfold initialize. fold sheetId apiKey.
    by rewrite (proj2 (String.eqb_neq _ _) H1), (proj2 (String.eqb_neq _ _) H2).
Qed.
Lemma initialize_requests_witness :
  str_or (witness_query !! "sheetId") "sheet-1" = "sheet-2" /\
  initialize "sheet-1" "key-1" witness_query (NetworkError "offline")
             (app_init (fun _ => 0) 0 0)
  = loadCameras "sheet-2" "key-1" (NetworkError "offline") (app_init (fun _ => 0) 0 0).
Proof.
  destruct (initialize_requests "sheet-1" "key-1" witness_query
              (NetworkError "offline") (app_init (fun _ => 0) 0 0)
              ltac:(discriminate) ltac:(discriminate)) as (_ & _ & H3 & _ & H5).
  split; [exact (H3 "sheet-2" eq_refl ltac:(discriminate))|exact H5].
Defined.


Lemma pad2_digits (n : nat) :
  (n < 100)%nat ->
  exists c1 c2, padStart (js_String_nat n) 2 "0" = String c1 (String c2 EmptyString) /\
    parseInt (String c1 (String c2 EmptyString)) = JNum (inject_Z (Z.of_nat n)).
Proof.
  intros Hn.
  do 100 (destruct n as [|n]; [eexists; eexists; split; reflexivity|]). lia.
Qed.

(** [updateClock]: for hours, minutes and seconds below 100 the clock
    text is [HH:MM:SS], eight characters, and reading back each two-digit
    field with [parseInt] gives the number it was built from. *)
Theorem updateClock_fields (h m sec : nat) :
  (h < 100)%nat -> (m < 100)%nat -> (sec < 100)%nat ->
  let txt := clock_text h m sec in
  String.length txt = 8%nat /\
  String.get 2 txt = Some ":"%char /\ String.get 5 txt = Some ":"%char /\
  parseInt (String.substring 0 2 txt) = JNum (inject_Z (Z.of_nat h)) /\
  parseInt (String.substring 3 2 txt) = JNum (inject_Z (Z.of_nat m)) /\
  parseInt (String.substring 6 2 txt) = JNum (inject_Z (Z.of_nat sec)).
Proof.
  intros Hh Hm Hs txt. subst txt. unfold clock_text.
  destruct (pad2_digits h Hh) as (a1 & b1 & -> & E1).
  destruct (pad2_digits m Hm) as (a2 & b2 & -> & E2).
  destruct (pad2_digits sec Hs) as (a3 & b3 & -> & E3).
  simpl. repeat split; auto.
Qed.
Lemma updateClock_fields_witness :
  (9 < 100)%nat /\ (5 < 100)%nat /\ (42 < 100)%nat /\
  String.length (clock_text 9 5 42) = 8%nat /\
  parseInt (String.substring 6 2 (clock_text 9 5 42)) = JNum (inject_Z (Z.of_nat 42)).
Proof.
  destruct (updateClock_fields 9 5 42 ltac:(lia) ltac:(lia) ltac:(lia))
    as (H1 & _ & _ & _ & _ & H6).
  split; [lia|split; [lia|split; [lia|split; [exact H1|exact H6]]]].
Defined.


Lemma ToUint8Clamp_bounds (x : Q) : (0 <= ToUint8Clamp x <= 255)%Z.
Proof.
  unfold ToUint8Clamp.
  destruct (Qle_bool x 0) eqn:E0; [lia|]. destruct (Qle_bool 255 x) eqn:E1; [lia|].
  apply not_true_iff_false in E0, E1. rewrite Qle_bool_iff in E0, E1.
  cbv zeta. pose proof (Qfloor_le x) as F1. pose proof (Qlt_floor x) as F2.
  assert (Hf1 : (0 <= Qfloor x)%Z).
  { assert (H : inject_Z 0 < inject_Z (Qfloor x + 1)) by (change (inject_Z 0) with 0; lra).
    rewrite <- Zlt_Qlt in H. lia. }
  assert (Hf2 : (Qfloor x < 255)%Z).
  { assert (H : inject_Z (Qfloor x) < inject_Z 255) by (change (inject_Z 255) with 255; lra).
    rewrite <- Zlt_Qlt in H. exact H. }
  destruct (qltb _ _); [lia|]. destruct (qltb _ _); [lia|]. destruct (Z.even _); lia.
Qed.

Lemma bytes_ok_wr (d : list Z) (i : nat) (x : Q) : bytes_ok d -> bytes_ok (wr d i x).
Proof.
  intros H j z. unfold wr. destruct (decide (i = j)) as [->|Hne].
  - destruct (decide (j < length d)%nat).
    + rewrite list_lookup_insert_eq by done. intros [= <-]. apply ToUint8Clamp_bounds.
    + rewrite list_insert_ge by lia. apply H.
  - rewrite list_lookup_insert_ne by done. apply H.
Qed.

Lemma alpha_ok_wr (d : list Z) (i : nat) (x : Q) :
  (i mod 4 <> 3)%nat -> alpha_ok d -> alpha_ok (wr d i x).
Proof.
  intros Hi H j. rewrite length_wr. intros Hj Hm. unfold wr.
  rewrite list_lookup_insert_ne by (intros ->; lia). by apply H.
Qed.

Lemma bytes_ok_wrz (d : list Z) (i : Z) (x : Q) : bytes_ok d -> bytes_ok (wrz d i x).
Proof. unfold wrz. destruct (i <? 0)%Z; [done|]. apply bytes_ok_wr. Qed.

Lemma alpha_ok_wrz (d : list Z) (i : Z) (x : Q) :
  (i mod 4 <> 3)%Z -> alpha_ok d -> alpha_ok (wrz d i x).
Proof.
  intros Hi. unfold wrz. destruct (Z.ltb_spec i 0); [done|]. apply alpha_ok_wr.
  intros E. apply Hi. rewrite <- (Z2Nat.id i) by lia.
  change 4%Z with (Z.of_nat 4). rewrite <- Nat2Z.inj_mod, E. reflexivity.
Qed.

Lemma rgb_loop_ok (g : nat -> Q -> Q) (k i : nat) (d : list Z) :
  (i mod 4 = 0)%nat -> bytes_ok d -> alpha_ok d ->
  bytes_ok (rgb_loop g k i d) /\ alpha_ok (rgb_loop g k i d).
Proof.
  revert i d. induction k as [|k IH]; intros i d Hi Hb Ha; [done|]. cbn [rgb_loop].
  apply IH.
  - rewrite Nat.Div0.add_mod, Hi. reflexivity.
  - by repeat apply bytes_ok_wr.
  - repeat apply alpha_ok_wr; try exact Ha.
    all: try rewrite Nat.Div0.add_mod; rewrite Hi; simpl; lia.
Qed.

Lemma band_pass_ok (sw sh : nat) (y : Z) (d : list Z) :
  bytes_ok d -> alpha_ok d -> bytes_ok (band_pass sw sh y d) /\ alpha_ok (band_pass sw sh y d).
Proof.
  unfold band_pass. generalize 6%nat, (y - 3)%Z. intros k. revert d.
  induction k as [|k IH]; intros d y0 Hb Ha; [done|]. cbn [band_loop]. apply IH.
  all: destruct (_ || _)%bool; [assumption|].
  all: rewrite band_row_loop_rgb; apply rgb_loop_ok; [|assumption|assumption].
  all: apply Nat.Div0.mod_mul.
Qed.

Lemma speckle_loop_ok (k sw sh : nat) (d : list Z) (s : state) :
  bytes_ok d -> alpha_ok d ->
  bytes_ok (speckle_loop k sw sh d s).1 /\ alpha_ok (speckle_loop k sw sh d s).1.
Proof.
  revert d s. induction k as [|k IH]; intros d s Hb Ha; [done|]. cbn [speckle_loop].
  destruct (Math_random s) as [r1 s1]. destruct (Math_random s1) as [r2 s2].
  apply IH.
  - by repeat apply bytes_ok_wrz.
  - repeat apply alpha_ok_wrz; try exact Ha.
    all: first [rewrite Z.mod_mul by lia | rewrite Z.add_comm, Z.mod_add by lia];
         discriminate.
Qed.

Lemma base_pass_ok (d : list Z) (s : state) :
  bytes_ok (base_pass d s).1 /\ alpha_ok (base_pass d s).1.
Proof.
  unfold base_pass. split.
  - intros j z Hj.
    assert (Hl : (j < length d)%nat).
    { rewrite <- (base_loop_length (quads d) 0 d s). apply lookup_lt_is_Some. by eexists. }
    rewrite base_loop_spec in Hj by exact Hl. pose proof (quads_cover d j Hl).
    destruct (Nat.leb_spec 0 j); [|lia]. destruct (Nat.ltb_spec j (0 + 4 * quads d)); [|lia].
    simpl in Hj. injection Hj as <-. destruct (Nat.eqb _ _); [lia|apply ToUint8Clamp_bounds].
  - intros j Hl Hm. rewrite base_loop_length in Hl.
    rewrite base_loop_spec by exact Hl. pose proof (quads_cover d j Hl).
    destruct (Nat.leb_spec 0 j); [|lia]. destruct (Nat.ltb_spec j (0 + 4 * quads d)); [|lia].
    cbn [andb]. rewrite Nat.sub_0_r, Hm. reflexivity.
Qed.

Lemma blend_pass_ok (pv : option (list Z)) (d : list Z) :
  bytes_ok d -> alpha_ok d -> bytes_ok (blend_pass pv d) /\ alpha_ok (blend_pass pv d).
Proof.
  intros Hb Ha. unfold blend_pass. destruct pv as [p|]; [|done].
  destruct (Nat.eqb _ _); [|done]. rewrite blend_loop_rgb. by apply rgb_loop_ok.
Qed.

Lemma blend_pass_length (pv : option (list Z)) (d : list Z) :
  length (blend_pass pv d) = length d.
Proof.
  unfold blend_pass. destruct pv as [p|]; [|done].
  destruct (Nat.eqb _ _); [|done]. rewrite blend_loop_rgb. apply rgb_loop_length.
Qed.

Lemma drawNoise_render_ok (now : Q) (nz : noise) (s : state) :
  qltb (now - last nz) frameInterval = false ->
  let d := data (drawNoise now nz s).1 in
  prev (drawNoise now nz s).1 = Some d /\
  length d = length (data nz) /\ bytes_ok d /\ alpha_ok d.
Proof.
  intros Hq d. subst d. rewrite drawNoise_render by exact Hq. cbn -[blend_pass pre_blend].
  unfold constant. split; [reflexivity|]. split.
  - by rewrite blend_pass_length, pre_blend_length.
  - apply blend_pass_ok; unfold pre_blend;
      destruct (base_pass_ok (data nz) s) as [Hb Ha];
      destruct (base_pass (data nz) s) as [d1 s1]; cbn [fst] in Hb, Ha;
      destruct (band_pass_ok (smallW nz) (smallH nz)
                 (bandY_of (t nz + (now - last nz) / 1000) (smallH nz)) d1 Hb Ha) as [Hb2 Ha2];
      apply speckle_loop_ok; assumption.
Qed.

(** A frame of [drawNoise] that is not skipped by the frame interval
    writes a buffer of the same length whose bytes are all in [0, 255]
    and whose alpha bytes are all 255, and keeps it as [prevData]. *)
Theorem drawNoise_frame_bytes (now : Q) (nz : noise) (s : state) :
  qltb (now - last nz) frameInterval = false ->
  let d := data (drawNoise now nz s).1 in
  prev (drawNoise now nz s).1 = Some d /\
  length d = length (data nz) /\
  (forall j z, d !! j = Some z -> (0 <= z <= 255)%Z) /\
  (forall j, (j < length d)%nat -> (j mod 4 = 3)%nat -> d !! j = Some 255%Z).
Proof. intros Hq. exact (drawNoise_render_ok now nz s Hq). Qed.

Lemma drawNoise_dims (now : Q) (nz : noise) (s : state) :
  smallW (drawNoise now nz s).1 = smallW nz /\ smallH (drawNoise now nz s).1 = smallH nz /\
  length (data (drawNoise now nz s).1) = length (data nz) /\
  (bytes_ok (data nz) -> bytes_ok (data (drawNoise now nz s).1)).
Proof.
  destruct (qltb (now - last nz) frameInterval) eqn:E.
  - rewrite drawNoise_skip by exact E. auto.
  - destruct (drawNoise_render_ok now nz s E) as (_ & Hl & Hb & _).
    split; [|split; [|split; [exact Hl|intros; exact Hb]]];
      rewrite drawNoise_render by exact E; reflexivity.
Qed.
Lemma drawNoise_frame_bytes_witness :
  qltb (1000 - last (start_noise 800 600)) frameInterval = false /\
  (forall j z, data (drawNoise 1000 (start_noise 800 600) (sample_page (sample_cam "LOST SIGNAL" "" false))).1
                 !! j = Some z -> (0 <= z <= 255)%Z).
Proof.
  assert (Hq : qltb (1000 - last (start_noise 800 600)) frameInterval = false) by reflexivity.
  split; [exact Hq|].
  exact (proj1 (proj2 (proj2 (drawNoise_frame_bytes 1000 (start_noise 800 600)
                                (sample_page (sample_cam "LOST SIGNAL" "" false)) Hq)))).
Defined.


Lemma view_mount_media_exact (cam : camera) (s : state) :
  view_of (mount_media cam s) =
  mkView (<[nextHandle s := media_element cam]> (dom s)) (viewChildren s ++ [nextHandle s])
         (Some (nextHandle s)) (panPaused s) (toggleLabel s).
Proof.
  state_cases s. unfold mount_media, media_element, video_url. simpl.
  by destruct (negb _ && _).
Qed.

Lemma view_base_loop (k i : nat) (d : list Z) (s : state) :
  view_of (base_loop k i d s).2 = view_of s.
Proof.
  revert i d s. induction k as [|k IH]; intros i d s; [done|].
  simpl. rewrite IH. by state_cases s.
Qed.

Lemma view_speckle_loop (k sw sh : nat) (d : list Z) (s : state) :
  view_of (speckle_loop k sw sh d s).2 = view_of s.
Proof.
  revert d s. induction k as [|k IH]; intros d s; [done|].
  simpl. rewrite IH. by state_cases s.
Qed.

Lemma view_drawNoise (now : Q) (nz : noise) (s : state) :
  view_of (drawNoise now nz s).2 = view_of s.
Proof.
  destruct (qltb (now - last nz) frameInterval) eqn:E.
  - by rewrite drawNoise_skip.
  - rewrite drawNoise_render by exact E. cbn [snd]. unfold pre_blend, base_pass.
    pose proof (view_base_loop (quads (data nz)) 0 (data nz) s) as H1.
    destruct (base_loop _ _ _ _) as [d1 s1]. cbn [snd] in H1 |- *.
    by rewrite view_speckle_loop.
Qed.

Lemma view_stopGlitch (s : state) : view_of (stopGlitch s) = view_of s.
Proof. state_cases s. by destruct gt. Qed.

Lemma view_triggerGlitch (min max : Q) (s : state) :
  view_of (triggerGlitch min max s) = view_of s.
Proof. state_cases s. by destruct gt. Qed.

Lemma view_stopLost (s : state) : view_of (stopLostSignalEffect s) = view_of s.
Proof. state_cases s. by destruct la. Qed.

Lemma view_startLost (w h : Q) (s : state) : view_of (startLostSignalEffect w h s) = view_of s.
Proof. state_cases s. by destruct la. Qed.

Lemma view_timer_step (e : pending_timer) (s : state) :
  view_of (run_timer (tcb e) (remove_timer (th e) s)) = view_of s.
Proof. state_cases s. by destruct (tcb e). Qed.

Lemma view_frame_step (e : pending_frame) (now : Q) (s : state) :
  view_of (run_frame (fcb e) now (remove_frame (fh e) s)) = view_of s.
Proof.
  destruct (fcb e) as [nz o]. cbn [run_frame].
  pose proof (view_drawNoise now nz (remove_frame (fh e) s)) as H.
  destruct (drawNoise now nz (remove_frame (fh e) s)) as [nz' s'].
  cbn [snd] in H. transitivity (view_of s'); [state_cases s'; reflexivity|].
  rewrite H. state_cases s. reflexivity.
Qed.

Lemma loadScene_view_cases (id' : string) (cam : camera) (s : state) :
  cameras s !! id' = Some cam ->
  let s3 := enter_scene id' s in
  (status cam = "LOST SIGNAL" ->
     exists n el, view_of (loadScene id' s) = mkView (<[n := el]> (dom s3)) [n] None false "PAUSE PAN"
                  /\ kind el = ELostSignal) /\
  (status cam <> "LOST SIGNAL" ->
     view_of (loadScene id' s) =
     mkView (if panEnabled cam
             then alter (play "running") (nextHandle s3)
                        (<[nextHandle s3 := media_element cam]> (dom s3))
             else <[nextHandle s3 := media_element cam]> (dom s3))
            [nextHandle s3] (Some (nextHandle s3)) false "PAUSE PAN").
Proof.
  intros Hc s3. rewrite (view_loadScene id' cam s Hc). fold s3.
  pose proof (view_stage3 id' s) as H3. fold s3 in H3.
  set (f := fun v : view =>
        mkView (match v_panNode v with
                | Some n => if panEnabled cam then alter (play "running") n (v_dom v) else v_dom v
                | None => v_dom v
                end) (v_children v) (v_panNode v) false "PAUSE PAN").
  split; intros Hs.
  - rewrite (proj2 (String.eqb_eq _ _) Hs).
    destruct (view_mount_lost_signal s3) as (n & el & E & Hk). exists n, el. split; [|exact Hk].
    change (f (view_of (mount_lost_signal s3)) = mkView (<[n:=el]> (dom s3)) [n] None false "PAUSE PAN").
    rewrite E, H3. reflexivity.
  - rewrite (proj2 (String.eqb_neq _ _) Hs).
    change (f (view_of (mount_media cam s3)) = mkView (if panEnabled cam
             then alter (play "running") (nextHandle s3)
                        (<[nextHandle s3 := media_element cam]> (dom s3))
             else <[nextHandle s3 := media_element cam]> (dom s3))
            [nextHandle s3] (Some (nextHandle s3)) false "PAUSE PAN").
    rewrite view_mount_media_exact, H3. subst f. cbv beta iota. cbn [v_panNode v_dom v_children]. by destruct (panEnabled cam).
Qed.

Lemma media_element_kind (cam : camera) :
  (kind (media_element cam) = EImg \/ kind (media_element cam) = EVideo) /\
  animationPlayState (media_element cam) = None.
Proof.
  unfold media_element, apply_pan.
  destruct (video_url _), (panEnabled cam); simpl; auto.
Qed.

Lemma view_inv_loadScene (id' : string) (s : state) :
  view_inv (view_of s) -> view_inv (view_of (loadScene id' s)).
Proof.
  intros Hv. destruct (cameras s !! id') as [cam|] eqn:Hc.
  2: { unfold loadScene. rewrite Hc. revert Hv. by state_cases s. }
  destruct (loadScene_view_cases id' cam s Hc) as [HL HM].
  destruct (String.eq_dec (status cam) "LOST SIGNAL") as [Hs|Hs].
  - destruct (HL Hs) as (n & el & E & _). rewrite E.
    split; [reflexivity|split; [simpl; lia|]]. intros m Hm. discriminate.
  - rewrite (HM Hs).
    generalize (nextHandle (enter_scene id' s)) (dom (enter_scene id' s)). intros k m0.
    split; [reflexivity|split; [simpl; lia|]].
    intros m Hm. injection Hm as <-. cbn [v_children v_dom v_panPaused]. split; [done|].
    destruct (media_element_kind cam) as [Hk Hp].
    destruct (panEnabled cam).
    + rewrite lookup_alter_eq, lookup_insert_eq. eexists. split; [reflexivity|].
      unfold play. cbn. split; [exact Hk|by right].
    + rewrite lookup_insert_eq. eexists. split; [reflexivity|]. split; [exact Hk|by left].
Qed.

Lemma view_inv_togglePan (s : state) :
  view_inv (view_of s) -> view_inv (view_of (togglePan s)).
Proof.
  rewrite view_togglePan. unfold view_inv, view_of. intros (Ht & Hl & Hn).
  cbn [v_toggle v_panPaused v_children v_panNode v_dom] in *.
  split; [reflexivity|split; [exact Hl|]].
  intros n Hpn. destruct (Hn n Hpn) as [Hch (el & Hel & Hk & _)].
  split; [exact Hch|]. rewrite Hpn, lookup_alter_eq, Hel.
  eexists. split; [reflexivity|]. unfold play. cbn. split; [exact Hk|by right].
Qed.

(** In every reachable state the pan button reads "RESUME PAN" exactly
    when the pan is paused, the view holds at most one element, and the
    pan node, when set, is that element: an [<img>] or [<video>] with no
    animation or one whose play state matches the button. *)
Theorem reachable_pan_view (s : state) :
  reachable s ->
  toggleLabel s = (if panPaused s then "RESUME PAN" else "PAUSE PAN") /\
  (length (viewChildren s) <= 1)%nat /\
  forall n, panNode s = Some n ->
    viewChildren s = [n] /\
    exists el, dom s !! n = Some el /\ (kind el = EImg \/ kind el = EVideo) /\
      (animationPlayState el = None \/
       animationPlayState el = Some (if panPaused s then "paused" else "running")).
Proof.
  intros H. change (view_inv (view_of s)).
  induction H as [cams r vw vh|s s' _ IH Hstep].
  - split; [reflexivity|split; [simpl; lia|]]. intros n Hn. discriminate.
  - destruct Hstep.
    + by apply view_inv_loadScene.
    + by rewrite view_triggerGlitch.
    + by rewrite view_stopGlitch.
    + by rewrite view_startLost.
    + by rewrite view_stopLost.
    + by apply view_inv_togglePan.
    + by rewrite view_timer_step.
    + by rewrite view_frame_step.
Qed.
Lemma reachable_pan_view_witness :
  reachable (togglePan (loadScene "cam-01" (sample_page (sample_cam "ONLINE" "" true)))) /\
  toggleLabel (togglePan (loadScene "cam-01" (sample_page (sample_cam "ONLINE" "" true))))
  = (if panPaused (togglePan (loadScene "cam-01" (sample_page (sample_cam "ONLINE" "" true))))
     then "RESUME PAN" else "PAUSE PAN").
Proof.
  assert (Hr : reachable (togglePan (loadScene "cam-01" (sample_page (sample_cam "ONLINE" "" true))))).
  { eapply reach_step; [|apply step_togglePan].
    eapply reach_step; [|apply step_loadScene]. apply reach_init. }
  split; [exact Hr|exact (proj1 (reachable_pan_view _ Hr))].
Defined.


Lemma video_url_spec (url : string) :
  video_url url = true <->
  url <> "" /\ (endsWith (toLowerCase url) ".mp4" || endsWith (toLowerCase url) ".webm"
                || endsWith (toLowerCase url) ".mov") = true.
Proof.
  unfold video_url. rewrite andb_true_iff, negb_true_iff, String.eqb_neq. done.
Qed.

(** [loadScene] of a registered camera mounts exactly one element: the
    lost-signal container for a [LOST SIGNAL] camera (with no pan node),
    otherwise a [<video>] for a non-empty URL ending, case-insensitively,
    in [.mp4], [.webm] or [.mov], and an [<img>] with the placeholder
    fallback and the location as [alt] for any other; that element is
    the pan node, with class [pan], the camera's duration and a running
    animation exactly when panning is enabled. *)
Theorem loadScene_mounts_element (s : state) (id' : string) (cam : camera) :
  cameras s !! id' = Some cam ->
  let s' := loadScene id' s in
  exists n el, viewChildren s' = [n] /\ dom s' !! n = Some el /\
    (kind el = ELostSignal <-> status cam = "LOST SIGNAL") /\
    (status cam = "LOST SIGNAL" -> panNode s' = None) /\
    (status cam <> "LOST SIGNAL" ->
       panNode s' = Some n /\
       (kind el = EVideo <->
          imageUrl cam <> "" /\
          (endsWith (toLowerCase (imageUrl cam)) ".mp4"
           || endsWith (toLowerCase (imageUrl cam)) ".webm"
           || endsWith (toLowerCase (imageUrl cam)) ".mov") = true) /\
       (kind el = EVideo -> src el = imageUrl cam) /\
       (kind el = EImg -> src el = str_or (Some (imageUrl cam)) NO_CAMERA_FEED /\
                          alt el = location cam) /\
       (className el = "pan" <-> panEnabled cam = true) /\
       (panEnabled cam = true ->
          animationDuration el = Some (panDuration cam) /\
          animationPlayState el = Some "running")).
Proof.
  intros Hc s'. subst s'. destruct (loadScene_view_cases id' cam s Hc) as [HL HM].
  destruct (String.eq_dec (status cam) "LOST SIGNAL") as [Hs|Hs].
  - destruct (HL Hs) as (n & el & E & Hk).
    pose proof (f_equal v_children E) as E1. pose proof (f_equal v_dom E) as E2.
    pose proof (f_equal v_panNode E) as E3. cbn in E1, E2, E3.
    exists n, el. split; [exact E1|]. split; [rewrite E2; apply lookup_insert_eq|].
    split; [split; intros; [exact Hs|exact Hk]|]. split; [intros; exact E3|]. done.
  - pose proof (HM Hs) as E.
    pose proof (f_equal v_children E) as E1. pose proof (f_equal v_dom E) as E2.
    pose proof (f_equal v_panNode E) as E3. cbn in E1, E2, E3.
    exists (nextHandle (enter_scene id' s)),
      (if panEnabled cam then play "running" (media_element cam) else media_element cam).
    split; [exact E1|]. split.
    { rewrite E2. destruct (panEnabled cam).
      - by rewrite lookup_alter_eq, lookup_insert_eq.
      - apply lookup_insert_eq. }
    rewrite <- video_url_spec.
    unfold media_element, apply_pan, play.
    destruct (video_url (imageUrl cam)), (panEnabled cam) eqn:Hp; cbn;
      repeat split; intros; try congruence; try done.
Qed.
Lemma loadScene_mounts_element_witness :
  cameras (sample_page (sample_cam "ONLINE" "clip.MP4" true)) !! "cam-01"
    = Some (sample_cam "ONLINE" "clip.MP4" true) /\
  exists n el,
    viewChildren (loadScene "cam-01" (sample_page (sample_cam "ONLINE" "clip.MP4" true))) = [n] /\
    dom (loadScene "cam-01" (sample_page (sample_cam "ONLINE" "clip.MP4" true))) !! n = Some el /\
    kind el = EVideo /\ className el = "pan".
Proof.
  split; [reflexivity|].
  destruct (loadScene_mounts_element (sample_page (sample_cam "ONLINE" "clip.MP4" true)) "cam-01"
              (sample_cam "ONLINE" "clip.MP4" true) eq_refl)
    as (n & el & H1 & H2 & _ & _ & H5).
  destruct (H5 ltac:(discriminate)) as (_ & Hv & _ & _ & Hp & _).
  exists n, el. split; [exact H1|split; [exact H2|split]].
  - apply Hv. split; [discriminate|reflexivity].
  - apply Hp. reflexivity.
Defined.


Section PendingNoise.

Variable P : noise -> Prop.

Hypothesis P_start : forall w h, P (start_noise w h).

Hypothesis P_draw : forall now nz s, P nz -> P (drawNoise now nz s).1.

Let ok (s : state) : Prop := Forall (frame_noise_ok P) (frames s).

Lemma noise_ok_sub (s s' : state) :
  (forall f, In f (frames s') -> In f (frames s)) -> ok s -> ok s'.
Proof. unfold ok. rewrite !List.Forall_forall. intros Hs H f Hf. by apply H, Hs. Qed.

Lemma noise_ok_sched (s s' : state) : sched_of s' = sched_of s -> ok s -> ok s'.
Proof. intros E. apply noise_ok_sub. rewrite !frames_sched, E. auto. Qed.

Lemma noise_ok_new (s : state) (fs : list pending_frame) (f : pending_frame) :
  (forall f', In f' fs -> In f' (frames s)) -> frame_noise_ok P f ->
  ok s -> Forall (frame_noise_ok P) (fs ++ [f]).
Proof.
  intros Hs Hf H. apply List.Forall_app. split; [|by constructor].
  apply List.Forall_forall. intros f' Hf'. unfold ok in H.
  rewrite List.Forall_forall in H. by apply H, Hs.
Qed.

Lemma noise_ok_stopGlitch (s : state) : ok s -> ok (stopGlitch s).
Proof. apply noise_ok_sub. rewrite (frames_sched (stopGlitch s)), sched_stopGlitch. auto. Qed.

Lemma noise_ok_triggerGlitch (min max : Q) (s : state) : ok s -> ok (triggerGlitch min max s).
Proof.
  intros H. apply noise_ok_stopGlitch in H. revert H. apply noise_ok_sub.
  unfold triggerGlitch. rewrite (frames_sched (schedule _ _ _ _)), sched_schedule. auto.
Qed.

Lemma noise_ok_stopLost (s : state) : ok s -> ok (stopLostSignalEffect s).
Proof.
  apply noise_ok_sub. rewrite (frames_sched (stopLostSignalEffect s)), sched_stopLost.
  simpl. intros f. destruct (lostSignalAnimationId s); [apply In_drop_frame|auto].
Qed.

Lemma noise_ok_startLost (w h : Q) (s : state) : ok s -> ok (startLostSignalEffect w h s).
Proof.
  intros H. unfold ok. rewrite frames_sched, sched_startLost. simpl.
  apply (noise_ok_new s); [|apply P_start|exact H].
  intros f. destruct (lostSignalAnimationId s); [apply In_drop_frame|auto].
Qed.

Lemma noise_ok_status_effects (cam : camera) (s : state) : ok s -> ok (status_effects cam s).
Proof.
  intros H. apply noise_ok_stopGlitch in H. unfold status_effects.
  repeat (destruct (String.eqb _ _); [by apply noise_ok_triggerGlitch|]). exact H.
Qed.

Lemma noise_ok_loadScene (id' : string) (s : state) : ok s -> ok (loadScene id' s).
Proof.
  intros H. destruct (cameras s !! id') as [cam|] eqn:Hc.
  - eapply noise_ok_sched; [apply (sched_loadScene id' cam s Hc)|]. cbv zeta.
    apply noise_ok_status_effects.
    eapply noise_ok_sched; [rewrite sched_reset_pan, sched_upd_labels; reflexivity|].
    assert (H3 : ok (enter_scene id' s)).
    { unfold enter_scene. eapply noise_ok_sched; [apply sched_upd_view|].
      apply noise_ok_stopLost. eapply noise_ok_sub; [|exact H]. auto. }
    destruct (String.eqb _ _).
    + destruct (frames_mount_lost_signal (enter_scene id' s)) as [cw [ch E]].
      unfold ok. rewrite E. apply (noise_ok_new (enter_scene id' s)); [|apply P_start|exact H3].
      intros f. destruct (lostSignalAnimationId _); [apply In_drop_frame|auto].
    + apply (noise_ok_sub (enter_scene id' s)); [|exact H3].
      rewrite (frames_sched (mount_media _ _)).
      destruct (sched_mount_media cam (enter_scene id' s)) as [E|E]; rewrite E; auto.
  - unfold loadScene. rewrite Hc. eapply noise_ok_sched; [apply sched_console_error|].
    exact H.
Qed.

Lemma noise_ok_timer_step (s : state) (e : pending_timer) :
  ok s -> ok (run_timer (tcb e) (remove_timer (th e) s)).
Proof.
  apply noise_ok_sub.
  assert (E : frames (remove_timer (th e) s) = frames s).
  { unfold remove_timer. by rewrite frames_sched, sched_clearTimeout. }
  destruct (tcb e) as [min max o|n]; cbn [run_timer]; [|rewrite E; auto].
  unfold bump. rewrite frames_sched, sched_schedule. cbn [s_frames]. change (frames (?x {{ glitchShow := true }})) with (frames x). rewrite E. auto.
Qed.

Lemma noise_ok_frame_step (s : state) (e : pending_frame) (now : Q) :
  In e (frames s) -> ok s -> ok (run_frame (fcb e) now (remove_frame (fh e) s)).
Proof.
  intros He H. assert (Hf : frame_noise_ok P e).
  { unfold ok in H. rewrite List.Forall_forall in H. by apply H. }
  unfold frame_noise_ok in Hf. destruct (fcb e) as [nz o].
  unfold ok. rewrite frames_run_frame.
  apply (noise_ok_new s); [| |exact H].
  - intros f. unfold remove_frame. rewrite frames_sched, sched_cancelAnimationFrame.
    apply In_drop_frame.
  - by apply P_draw.
Qed.

Lemma reachable_noise_ok (s : state) : reachable s -> ok s.
Proof.
  induction 1 as [cams r vw vh|s s' _ IH Hstep]; [constructor|].
  destruct Hstep.
  - by apply noise_ok_loadScene.
  - by apply noise_ok_triggerGlitch.
  - by apply noise_ok_stopGlitch.
  - by apply noise_ok_startLost.
  - by apply noise_ok_stopLost.
  - eapply noise_ok_sched; [apply sched_togglePan|exact IH].
  - by apply noise_ok_timer_step.
  - by apply noise_ok_frame_step.
Qed.

End PendingNoise.

(** In every reachable state each pending noise frame holds a buffer of
    at least 64 by 64 pixels, four bytes per pixel, every byte in
    [0, 255]. *)
Theorem reachable_noise_buffers (s : state) :
  reachable s ->
  forall f nz o, In f (frames s) -> fcb f = DrawNoise nz o ->
    (64 <= smallW nz)%nat /\ (64 <= smallH nz)%nat /\
    length (data nz) = (4 * smallW nz * smallH nz)%nat /\
    (forall j z, data nz !! j = Some z -> (0 <= z <= 255)%Z).
Proof.
  intros Hr f nz o Hf Hc.
  assert (H : Forall (frame_noise_ok buffer_ok) (frames s)).
  { apply reachable_noise_ok; [| |exact Hr].
    - intros w h. unfold buffer_ok, start_noise. cbn. split; [lia|split; [lia|split]].
      + apply repeat_length.
      + intros j z Hj. apply list_elem_of_lookup_2, list_elem_of_In, repeat_spec in Hj. subst z. lia.
    - intros now nz0 s0 (H1 & H2 & H3 & H4).
      destruct (drawNoise_dims now nz0 s0) as (E1 & E2 & E3 & E4).
      unfold buffer_ok. rewrite E1, E2, E3. auto. }
  rewrite List.Forall_forall in H. specialize (H f Hf). unfold frame_noise_ok in H.
  rewrite Hc in H. exact H.
Qed.
Lemma reachable_noise_buffers_witness :
  reachable (startLostSignalEffect 800 600 (sample_page (sample_cam "LOST SIGNAL" "" false))) /\
  forall f nz o, In f (frames (startLostSignalEffect 800 600
                     (sample_page (sample_cam "LOST SIGNAL" "" false)))) ->
    fcb f = DrawNoise nz o -> (64 <= smallW nz)%nat.
Proof.
  assert (Hr : reachable (startLostSignalEffect 800 600
                            (sample_page (sample_cam "LOST SIGNAL" "" false))))
    by (eapply reach_step; [apply reach_init|apply step_startLost]).
  split; [exact Hr|].
  intros f nz o Hf Hc. exact (proj1 (reachable_noise_buffers _ Hr f nz o Hf Hc)).
Defined.






